(** * Ollama_Transcript.py: chunked transcript store and summary accumulator

    A shallow embedding of [backend/app/Ollama_Transcript.py]:
    - the Python primitives the module relies on (slicing, [range],
      [str.strip], f-strings over integers);
    - the ChromaDB collection held by [TranscriptProcessor], as a finite
      map from chunk id to chunk record;
    - [MeetingSummarizer] and its four sections;
    - the seven agent tools, written in a state-and-exception monad over
      the module-level singletons [processor] and [summarizer].

    Python [str] values are sequences of Unicode code points, Python
    [int] values are [Z]. Calls to [logger] have no effect on any value
    the module computes and are left out. *)

From Stdlib Require Import ZArith Lia Ascii String.
From stdpp Require Import base numbers list sorting gmap strings pretty.

Local Open Scope Z_scope.

(** ** Python values *)

(** A Python string: its code points, in order. *)
Abbreviation str := (list N).

(** A source literal, character by character. *)
Definition lit (s : string) : str :=
  N_of_ascii <$> String.list_ascii_of_string s.

(** The character a source literal writes as backslash-n. *)
Definition newline : str := [10%N].

(** [len(s)] *)
Definition len {A} (s : list A) : Z := Z.of_nat (length s).

(** [str(i)] for an integer. *)
Definition str_of_int (i : Z) : str := lit (pretty i).

(** Exceptions that the modelled code can raise, with their message:
    [ValueError], [IOError] (Python's [OSError] and its subclasses, such
    as [IsADirectoryError] and [PermissionError], which [except IOError]
    catches alike), and the error classes of chromadb. *)
Inductive exn : Type :=
  | ValueError (msg : str)
  | IOError (msg : str)
  | ChromaError (msg : str).

(** [str(e)] *)
Definition str_of_exn (e : exn) : str :=
  match e with
  | ValueError msg => msg
  | IOError msg => msg
  | ChromaError msg => msg
  end.

(** Result of running a piece of Python: a value, or a raised exception. *)
Inductive outcome (A : Type) : Type :=
  | Ok (a : A)
  | Raise (e : exn).
Arguments Ok {A} a.
Arguments Raise {A} e.

(** Normalisation of one slice bound against a sequence of length [n]:
    a negative bound counts from the end, and the result is clamped to
    [0 .. n]. *)
Definition slice_bound (n i : Z) : Z :=
  if i <? 0 then Z.max 0 (i + n) else Z.min i n.

(** [s[lo:hi]] *)
Definition py_slice {A} (s : list A) (lo hi : Z) : list A :=
  let a := slice_bound (len s) lo in
  let b := slice_bound (len s) hi in
  take (Z.to_nat (b - a)) (drop (Z.to_nat a) s).

(** [len(range(start, stop, step))] for a non-zero step. *)
Definition range_length (start stop step : Z) : nat :=
  if 0 <? step then
    if start <? stop then Z.to_nat ((stop - start - 1) / step + 1) else 0%nat
  else
    if stop <? start then Z.to_nat ((start - stop - 1) / (- step) + 1) else 0%nat.

(** [range(start, stop, step)], materialised. *)
Definition py_range (start stop step : Z) : outcome (list Z) :=
  if step =? 0 then Raise (ValueError (lit "range() arg 3 must not be zero"))
  else Ok ((λ k : nat, start + Z.of_nat k * step) <$> seq 0 (range_length start stop step)).

(** [c.isspace()] for one code point: the characters CPython's
    [_PyUnicode_IsWhitespace] accepts. *)
Definition py_isspace (c : N) : bool :=
  ((9 <=? c) && (c <=? 13) || (28 <=? c) && (c <=? 32)
   || (c =? 133) || (c =? 160) || (c =? 5760)
   || (8192 <=? c) && (c <=? 8202)
   || (c =? 8232) || (c =? 8233) || (c =? 8239) || (c =? 8287)
   || (c =? 12288))%N.

(** [s.lstrip()] *)
Fixpoint py_lstrip (s : str) : str :=
  match s with
  | c :: s' => if py_isspace c then py_lstrip s' else s
  | [] => []
  end.

(** [s.rstrip()] *)
Definition py_rstrip (s : str) : str := reverse (py_lstrip (reverse s)).

(** [s.strip()] *)
Definition py_strip (s : str) : str := py_rstrip (py_lstrip s).

(** What reading a file in text mode does to its line ends: a carriage
    return followed by a line feed, and a carriage return alone, are read
    as one line feed. *)
Fixpoint universal_newlines (s : str) : str :=
  match s with
  | [] => []
  | c :: s' =>
      if (c =? 13)%N then
        match s' with
        | c' :: s'' =>
            if (c' =? 10)%N then 10%N :: universal_newlines s''
            else 10%N :: universal_newlines s'
        | [] => [10%N]
        end
      else c :: universal_newlines s'
  end.

(** ** Data model *)

(** [class Block(BaseModel)] *)
Record Block : Type := {
  id : str;
  type : str;
  content : str;
  color : str
}.

(** [class Section(BaseModel)], named [Section_] because [Section] is a
    keyword here. *)
Record Section_ : Type := {
  title : str;
  blocks : list Block
}.

(** [class SummaryResponse(BaseModel)]. Its fields carry the prefix
    [sr_]: the plain names are those of [MeetingSummarizer]'s attributes. *)
Record SummaryResponse : Type := {
  sr_Agenda : Section_;
  sr_Decisions : Section_;
  sr_ActionItems : Section_;
  sr_ClosingRemarks : Section_
}.

(** One record of the ChromaDB collection: the document and its metadata
    dictionary [{"source": ..., "processed": ...}]. The record's id is
    its key in the collection. *)
Record Chunk : Type := {
  document : str;
  source : str;
  processed : bool
}.

(** [class TranscriptProcessor]: the collection, keyed by chunk id, and
    the exception the store raises for an id list that its [delete]
    rejects; the class and the text of that exception are chromadb's. *)
Record TranscriptProcessor : Type := {
  collection : gmap str Chunk;
  delete_error : list str → exn
}.

(** [class MeetingSummarizer]: the four sections. *)
Record MeetingSummarizer : Type := {
  Agenda : Section_;
  Decisions : Section_;
  ActionItems : Section_;
  ClosingRemarks : Section_
}.

(** The part of the operating system the module reaches through its own
    [open] calls and through [uuid]; the directory in which the ChromaDB
    client persists its store is not part of it, the store being the
    collection above.
    - [files]: the regular files, by path, with the characters stored;
    - [read_errors]: the paths that exist and whose
      [open(path, 'r').read()] raises (a directory, a file without read
      permission, bytes that do not decode), with the exception raised;
    - [write_errors]: the paths on which [open(path, 'w')] or the write
      raises, with the exception raised;
    - [uuid_source], [uuid_drawn]: the values [uuid.uuid4()] hands out,
      in the order it hands them out, and how many it has handed out. *)
Record OS : Type := {
  files : gmap str str;
  read_errors : gmap str exn;
  write_errors : gmap str exn;
  uuid_source : nat → str;
  uuid_drawn : nat
}.

(** [RunContext]: the one attribute the tools look for. [None] is an
    object without the attribute, as [hasattr] sees it. *)
Record RunContext : Type := {
  processed_chunks : option (list str)
}.

(** The state the module's functions run in: the two module-level
    singletons, the run context object and the operating system. *)
Record World : Type := {
  processor : TranscriptProcessor;
  summarizer : MeetingSummarizer;
  ctx : RunContext;
  os : OS
}.

Definition set_collection (c : gmap str Chunk) (w : World) : World :=
  {| processor := {| collection := c; delete_error := delete_error (processor w) |};
     summarizer := summarizer w; ctx := ctx w; os := os w |}.

Definition set_summarizer (s : MeetingSummarizer) (w : World) : World :=
  {| processor := processor w; summarizer := s; ctx := ctx w; os := os w |}.

Definition set_ctx (c : RunContext) (w : World) : World :=
  {| processor := processor w; summarizer := summarizer w; ctx := c; os := os w |}.

Definition set_os (o : OS) (w : World) : World :=
  {| processor := processor w; summarizer := summarizer w; ctx := ctx w; os := o |}.

(** ** The state-and-exception monad

    A raised exception keeps the state reached so far, as in Python. *)
Definition M (A : Type) : Type := World → outcome A * World.

Definition ret {A} (a : A) : M A := λ w, (Ok a, w).

Definition raise {A} (e : exn) : M A := λ w, (Raise e, w).

Definition bind {A B} (m : M A) (k : A → M B) : M B :=
  λ w, match m w with
       | (Ok a, w') => k a w'
       | (Raise e, w') => (Raise e, w')
       end.

(** [try: m  except Exception as e: h e] *)
Definition try_except {A} (m : M A) (h : exn → M A) : M A :=
  λ w, match m w with
       | (Ok a, w') => (Ok a, w')
       | (Raise e, w') => h e w'
       end.

Definition get_world : M World := λ w, (Ok w, w).

Definition modify (f : World → World) : M unit := λ w, (Ok (), f w).

Definition lift {A} (o : outcome A) : M A := λ w, (o, w).

Global Instance M_ret : MRet M := @ret.
Global Instance M_bind : MBind M := λ A B k m, bind m k.
Global Instance M_fmap : FMap M := λ A B f m, bind m (λ a, ret (f a)).

(** [for x in xs: body x] *)
Fixpoint for_each {A} (xs : list A) (body : A → M unit) : M unit :=
  match xs with
  | [] => ret ()
  | x :: xs' => body x;; for_each xs' body
  end.

(** [list(enumerate(xs))], counting from [k]. *)
Fixpoint enumerate_from {A} (k : Z) (xs : list A) : list (Z * A) :=
  match xs with
  | [] => []
  | x :: xs' => (k, x) :: enumerate_from (k + 1) xs'
  end.

Definition enumerate {A} (xs : list A) : list (Z * A) := enumerate_from 0 xs.

(** ** The ChromaDB collection

    The collection is an external service; what the module relies on is
    modelled here. Ids are unique keys. [delete] rejects an id list that
    is empty or names an id twice: it raises and deletes nothing;
    otherwise it deletes the ids given and ignores those that are not
    present. [add] ignores an id that is already present, and [query]
    answers the [n_results] records nearest to the query text under the
    collection's embedding distance. *)

(** [collection.get()['ids']] *)
Definition collection_get_ids (m : gmap str Chunk) : list str :=
  (map_to_list m).*1.

(** [collection.delete(ids=ids)] *)
Definition collection_delete (p : TranscriptProcessor) (ids : list str)
    : outcome (gmap str Chunk) :=
  if decide (ids ≠ [] ∧ NoDup ids)
  then Ok (foldr delete (collection p) ids)
  else Raise (delete_error p ids).

(** [collection.add(documents=[doc], metadatas=[meta], ids=[i])] *)
Definition collection_add (i : str) (c : Chunk) (m : gmap str Chunk) : gmap str Chunk :=
  match m !! i with
  | Some _ => m
  | None => <[i := c]> m
  end.

(** ** The module *)

Section Ollama_Transcript.

(** The embedding distance of the similarity index: smaller is more
    relevant. *)
Variable distance : str → str → Z.

(** [summary.model_dump_json(indent=2)], pydantic's JSON renderer. *)
Variable model_dump_json : SummaryResponse → str.

(** Records ordered by distance to the query text. *)
Definition nearer (q : str) (a b : str * Chunk) : Prop :=
  distance q (document a.2) ≤ distance q (document b.2).

Global Instance nearer_dec q a b : Decision (nearer q a b).
Proof. unfold nearer. apply _. Defined.

(** [collection.query(query_texts=qs, n_results=n)]: for each query
    text, the [n] nearest records with their ids. *)
Definition collection_query (query_texts : list str) (n_results : nat)
    (m : gmap str Chunk) : list (list (str * Chunk)) :=
  (λ q, take n_results (merge_sort (nearer q) (map_to_list m))) <$> query_texts.

(** *** TranscriptProcessor *)

(** [os.path.exists(path)], then [open(path, 'r').read()], else the
    argument itself is the transcript. *)
Definition read_outcome (o : OS) (transcript_path : str) : outcome str :=
  match read_errors o !! transcript_path with
  | Some e => Raise e
  | None =>
      match files o !! transcript_path with
      | Some text => Ok (universal_newlines text)
      | None => Ok transcript_path
      end
  end.

Definition read_transcript (transcript_path : str) : M str :=
  w ← get_world;
  lift (read_outcome (os w) transcript_path).

(** Line 124: the chunk list. *)
Definition split_chunks {A} (transcript : list A) (chunk_size overlap : Z)
    : outcome (list (list A)) :=
  match py_range 0 (len transcript) (chunk_size - overlap) with
  | Ok starts => Ok ((λ i, py_slice transcript i (i + chunk_size)) <$> starts)
  | Raise e => Raise e
  end.

(** The id [f"id_{i}"] of chunk [i]. *)
Definition chunk_id (i : Z) : str := lit "id_" ++ str_of_int i.

(** The record stored for chunk [i]: the chunk and its metadata. *)
Definition chunk_record (i : Z) (chunk : str) : Chunk :=
  {| document := chunk; source := lit "chunk_" ++ str_of_int i; processed := false |}.

(** [TranscriptProcessor.process_transcript]. The collection object is
    always present and truthy, so both [if self.collection] tests take
    the branch that uses it. *)
Definition process_transcript (transcript_path : str) (chunk_size overlap : Z) : M Z :=
  try_except
    ((* Clear any existing collection *)
     try_except
       (w ← get_world;
        let ids := collection_get_ids (collection (processor w)) in
        m ← lift (collection_delete (processor w) ids);
        modify (set_collection m))
       (λ e, mret ());;
     transcript ← read_transcript transcript_path;
     (* Split transcript into chunks *)
     chunks ← lift (split_chunks transcript chunk_size overlap);
     (* Add chunks to collection *)
     for_each (enumerate chunks) (λ '(i, chunk),
       w ← get_world;
       modify (set_collection
                 (collection_add (chunk_id i) (chunk_record i chunk)
                                 (collection (processor w)))));;
     mret (len chunks))
    (λ e, raise e).

(** *** MeetingSummarizer *)

Definition empty_section (t : string) : Section_ :=
  {| title := lit t; blocks := [] |}.

(** [MeetingSummarizer.__init__] *)
Definition new_summarizer : MeetingSummarizer :=
  {| Agenda := empty_section "Agenda";
     Decisions := empty_section "Decisions";
     ActionItems := empty_section "Action Items";
     ClosingRemarks := empty_section "Closing Remarks" |}.

(** The value the next call of [uuid.uuid4()] returns, and the
    generator after that call. *)
Definition next_uuid (o : OS) : str := uuid_source o (uuid_drawn o).

Definition draw_uuid (o : OS) : OS :=
  {| files := files o; read_errors := read_errors o;
     write_errors := write_errors o;
     uuid_source := uuid_source o; uuid_drawn := S (uuid_drawn o) |}.

(** [str(uuid.uuid4())] *)
Definition uuid4 : M str :=
  w ← get_world;
  modify (set_os (draw_uuid (os w)));;
  mret (next_uuid (os w)).

(** The default of [create_block]'s parameter [color]. *)
Definition default_color : str := lit "default".

(** [MeetingSummarizer.create_block] *)
Definition create_block (title content block_type color : str) : M Block :=
  i ← uuid4;
  mret {| id := i; type := block_type; content := content; color := color |}.

(** [s.blocks.append(b)] *)
Definition append_block (b : Block) (s : Section_) : Section_ :=
  {| title := title s; blocks := blocks s ++ [b] |}.

(** [MeetingSummarizer.add_action_item] *)
Definition summarizer_add_action_item (title content : str) : M str :=
  block ← create_block title content (lit "action") default_color;
  modify (λ w, let s := summarizer w in
               set_summarizer
                 {| Agenda := Agenda s; Decisions := Decisions s;
                    ActionItems := append_block block (ActionItems s);
                    ClosingRemarks := ClosingRemarks s |} w);;
  mret (lit "Successfully added action item: " ++ id block).

(** [MeetingSummarizer.add_agenda_item] *)
Definition summarizer_add_agenda_item (title content : str) : M str :=
  block ← create_block title content (lit "agenda") default_color;
  modify (λ w, let s := summarizer w in
               set_summarizer
                 {| Agenda := append_block block (Agenda s);
                    Decisions := Decisions s;
                    ActionItems := ActionItems s;
                    ClosingRemarks := ClosingRemarks s |} w);;
  mret (lit "Successfully added agenda item: " ++ id block).

(** [MeetingSummarizer.add_decision] *)
Definition summarizer_add_decision (title content : str) : M str :=
  block ← create_block title content (lit "decision") default_color;
  modify (λ w, let s := summarizer w in
               set_summarizer
                 {| Agenda := Agenda s;
                    Decisions := append_block block (Decisions s);
                    ActionItems := ActionItems s;
                    ClosingRemarks := ClosingRemarks s |} w);;
  mret (lit "Successfully added decision: " ++ id block).

(** The summary built from the accumulator [s]: its first three
    sections and a new, empty Closing Remarks section. *)
Definition summary_of (s : MeetingSummarizer) : SummaryResponse :=
  {| sr_Agenda := Agenda s;
     sr_Decisions := Decisions s;
     sr_ActionItems := ActionItems s;
     sr_ClosingRemarks := {| title := lit "Closing Remarks"; blocks := [] |} |}.

(** [MeetingSummarizer.generate_summary] *)
Definition generate_summary : M SummaryResponse :=
  w ← get_world;
  mret (summary_of (summarizer w)).

(** *** The agent tools *)

(** The operating system after [data] was written to [path]. *)
Definition put_file (path data : str) (o : OS) : OS :=
  {| files := <[path := data]> (files o); read_errors := read_errors o;
     write_errors := write_errors o;
     uuid_source := uuid_source o; uuid_drawn := uuid_drawn o |}.

(** [open(path, 'w')] followed by [f.write(data)] *)
Definition write_file (path data : str) : M unit :=
  w ← get_world;
  match write_errors (os w) !! path with
  | Some e => raise e
  | None => modify (set_os (put_file path data (os w)))
  end.

(** The message given to the agent once the store is exhausted. *)
Definition CHROMADB_EMPTY : str :=
  lit "CHROMADB_EMPTY: All chunks have been processed.".

(** The loop of [query_transcript] over the hits of the first query
    text: the concatenated result and the ids seen. *)
Fixpoint collect_hits (hits : list (str * Chunk)) (combined_result : str)
    (chunk_ids : list str) : str * list str :=
  match hits with
  | [] => (combined_result, chunk_ids)
  | (i, c) :: hits' =>
      collect_hits hits' (combined_result ++ newline ++ document c ++ newline)
                   (chunk_ids ++ [i])
  end.

(** [query_transcript] *)
Definition query_transcript (query : str) : M str :=
  try_except
    ((* Check if there are any chunks left *)
     w ← get_world;
     match collection_get_ids (collection (processor w)) with
     | [] => mret CHROMADB_EMPTY
     | _ :: _ =>
         let results := collection_query [query] 1 (collection (processor w)) in
         match results with
         | [] | [] :: _ => mret (lit "No results found for the query")
         | hits :: _ =>
             (* Process and immediately delete chunks *)
             let '(combined_result, chunk_ids) := collect_hits hits [] [] in
             failed ←
               match chunk_ids with
               | [] => mret None
               | _ :: _ =>
                   try_except
                     (w1 ← get_world;
                      m ← lift (collection_delete (processor w1) chunk_ids);
                      modify (set_collection m);;
                      mret None)
                     (λ e, mret (Some (lit "Error deleting chunks: " ++ str_of_exn e)))
               end;
             match failed with
             | Some msg => mret msg
             | None => mret (py_strip combined_result)
             end
         end
     end)
    (λ e, mret (lit "Error: " ++ str_of_exn e)).

(** [delete_processed_chunks] *)
Definition delete_processed_chunks : M str :=
  try_except
    (w ← get_world;
     match processed_chunks (ctx w) with
     | None | Some [] => mret (lit "No chunks to delete")
     | Some chunk_ids =>
         m ← lift (collection_delete (processor w) chunk_ids);
         modify (set_collection m);;
         (* Clear the processed chunks *)
         modify (set_ctx {| processed_chunks := Some [] |});;
         mret (lit "Successfully deleted " ++ str_of_int (len chunk_ids) ++ lit " chunks")
     end)
    (λ e, mret (lit "Error deleting chunks: " ++ str_of_exn e)).

(** [add_action_item] *)
Definition add_action_item (title content : str) : M str :=
  result ← summarizer_add_action_item title content;
  mret (lit "Successfully added action item: " ++ result).

(** [add_agenda_item] *)
Definition add_agenda_item (title content : str) : M str :=
  result ← summarizer_add_agenda_item title content;
  mret (lit "Successfully added agenda item: " ++ result).

(** [add_decision] *)
Definition add_decision (title content : str) : M str :=
  result ← summarizer_add_decision title content;
  mret (lit "Successfully added decision: " ++ result).

(** The message [save_final_summary_result] answers on an empty
    summary. *)
Definition NO_CONTENT : str :=
  lit "Error: No content found in summary. Please add some items first.".

(** Truth value of a list: it is not empty. *)
Definition truthy {A} (l : list A) : bool :=
  match l with [] => false | _ :: _ => true end.

(** [save_final_summary_result] *)
Definition save_final_summary_result : M str :=
  try_except
    ((* Get the final summary result *)
     summary ← generate_summary;
     (* Validate summary has content *)
     if negb (existsb (λ b : bool, b)
                [ truthy (blocks (sr_Agenda summary));
                  truthy (blocks (sr_Decisions summary));
                  truthy (blocks (sr_ActionItems summary));
                  truthy (blocks (sr_ClosingRemarks summary)) ])
     then mret NO_CONTENT
     else
       let json_data := model_dump_json summary in
       try_except
         (write_file (lit "final_summary_result.json") json_data;;
          mret (lit "Successfully saved final summary result to file"))
         (λ e, match e with
               | IOError _ => mret (lit "Error saving to file: " ++ str_of_exn e)
               | _ => raise e
               end))
    (λ e, mret (lit "Error processing summary: " ++ str_of_exn e)).

(** [get_final_summary] *)
Definition get_final_summary : M SummaryResponse := generate_summary.

(** *** Runs of the program *)

(** What the agent can ask for: one of the seven tools. *)
Inductive ToolCall : Type :=
  | QueryTranscript (query : str)
  | AddActionItem (title content : str)
  | AddAgendaItem (title content : str)
  | AddDecision (title content : str)
  | SaveFinalSummaryResult
  | GetFinalSummary
  | DeleteProcessedChunks.

(** What a tool answers. *)
Inductive ToolResult : Type :=
  | Text (s : str)
  | Summary (s : SummaryResponse).

(** The agent framework running one tool call. *)
Definition call_tool (t : ToolCall) : M ToolResult :=
  match t with
  | QueryTranscript q => Text <$> query_transcript q
  | AddActionItem t c => Text <$> add_action_item t c
  | AddAgendaItem t c => Text <$> add_agenda_item t c
  | AddDecision t c => Text <$> add_decision t c
  | SaveFinalSummaryResult => Text <$> save_final_summary_result
  | GetFinalSummary => Summary <$> get_final_summary
  | DeleteProcessedChunks => Text <$> delete_processed_chunks
  end.

(** The run context the agent framework hands to the tools: it has no
    attribute [processed_chunks]. *)
Definition new_ctx : RunContext := {| processed_chunks := None |}.

(** The state the module starts in: a fresh summarizer and a run
    context without [processed_chunks]; the persistent collection and
    the operating system are arbitrary. *)
Definition initial (w : World) : Prop :=
  summarizer w = new_summarizer ∧ ctx w = new_ctx.

(** The states a run can reach: from an initial state, by ingesting a
    transcript or by a tool call. *)
Inductive reachable : World → Prop :=
  | reach_initial w : initial w → reachable w
  | reach_ingest w path chunk_size overlap :
      reachable w → reachable (process_transcript path chunk_size overlap w).2
  | reach_tool w t :
      reachable w → reachable (call_tool t w).2.

(** The ids each of a series of [query_transcript] calls removes from
    the collection. *)
Fixpoint query_log (queries : list str) (w : World) : list (gset str) :=
  match queries with
  | [] => []
  | q :: queries' =>
      let w' := (query_transcript q w).2 in
      (dom (collection (processor w)) ∖ dom (collection (processor w')))
        :: query_log queries' w'
  end.

End Ollama_Transcript.

(** ** Notions used in the proofs *)

(** The collection after the ingestion loop has added [chunks], numbered
    from [k]. *)
Fixpoint add_chunks (k : Z) (chunks : list str) (m : gmap str Chunk) : gmap str Chunk :=
  match chunks with
  | [] => m
  | c :: cs => add_chunks (k + 1) cs (collection_add (chunk_id k) (chunk_record k c) m)
  end.

(** ** Notions of the specification *)

(** The chunks with the overlaps removed: the first chunk, then every
    later chunk without its first [overlap] characters. *)
Definition rejoin {A} (overlap : Z) (chunks : list (list A)) : list A :=
  match chunks with
  | [] => []
  | c :: cs => c ++ concat (drop (Z.to_nat overlap) <$> cs)
  end.

(** The window starts [0, step, 2*step, ...] below [n]. *)
Definition window_starts (n step : Z) : list Z :=
  (λ k : nat, Z.of_nat k * step) <$> seq 0 (Z.to_nat ((n + step - 1) / step)).

(** The block an add operation creates in state [w]. *)
Definition new_block (kind : string) (content : str) (w : World) : Block :=
  {| id := next_uuid (os w); type := lit kind; content := content;
     color := lit "default" |}.

(** Every block of a summary, section after section. *)
Definition all_blocks (s : SummaryResponse) : list Block :=
  blocks (sr_Agenda s) ++ blocks (sr_Decisions s)
  ++ blocks (sr_ActionItems s) ++ blocks (sr_ClosingRemarks s).

(** The test of [save_final_summary_result], on the accumulator: one of
    the three sections the tools fill has a block. *)
Definition has_content (s : MeetingSummarizer) : bool :=
  truthy (blocks (Agenda s)) || truthy (blocks (Decisions s))
  || truthy (blocks (ActionItems s)).

(** What [save_final_summary_result] answers when writing the file
    raises [e]: the inner handler reports an [IOError], the outer one
    any other exception. *)
Definition write_failure (e : exn) : str :=
  match e with
  | IOError _ => lit "Error saving to file: " ++ str_of_exn e
  | _ => lit "Error processing summary: " ++ str_of_exn e
  end.


(** ** Sample states, to run the definitions on concrete inputs *)

Definition sample_uuid (n : nat) : str := lit "uuid-" ++ str_of_int (Z.of_nat n).

Definition sample_os : OS :=
  {| files := ∅; read_errors := ∅; write_errors := ∅;
     uuid_source := sample_uuid; uuid_drawn := 0 |}.

(** What a store answers to an id list it rejects. *)
Definition sample_delete_error (ids : list str) : exn :=
  match ids with
  | [] => ValueError (lit "Expected IDs to be a non-empty list, got []")
  | _ :: _ => ChromaError (lit "Expected IDs to be unique, found duplicates")
  end.

(** An empty collection, a fresh summarizer, nothing on disk. *)
Definition sample_world : World :=
  {| processor := {| collection := ∅; delete_error := sample_delete_error |};
     summarizer := new_summarizer;
     ctx := new_ctx;
     os := sample_os |}.

(** A distance that ranks every document alike. *)
Definition flat_distance (q d : str) : Z := 0.

(** A distance that prefers short documents. *)
Definition length_distance (q d : str) : Z := len d.

(** A stand-in for the JSON renderer. *)
Definition sample_dump (s : SummaryResponse) : str :=
  lit "blocks: " ++ str_of_int (len (all_blocks s)).

(** The sample state after ingesting a nine-character transcript in
    chunks of three with an overlap of one. *)
Definition ingested_world : World :=
  (process_transcript (lit " ab cd ef") 3 1 sample_world).2.

(** The sample state after ingesting a transcript that starts with a
    space and fits in one chunk. *)
Definition padded_world : World :=
  (process_transcript (lit " a") 5 0 sample_world).2.

(** The sample state after one decision was added. *)
Definition decided_world : World :=
  (add_decision (lit "Budget") (lit "Approved") sample_world).2.

(** ** Runs as lists of events *)

(** One step of a run: the caller ingests a transcript, or the agent
    calls a tool. *)
Inductive Event : Type :=
  | Ingest (transcript_path : str) (chunk_size overlap : Z)
  | Call (t : ToolCall).

Section Events.

Variable distance : str → str → Z.
Variable model_dump_json : SummaryResponse → str.

(** The state after one event; a raised exception is dropped, the
    state it left is kept. *)
Definition run_event (e : Event) (w : World) : World :=
  match e with
  | Ingest path chunk_size overlap => (process_transcript path chunk_size overlap w).2
  | Call t => (call_tool distance model_dump_json t w).2
  end.

(** The state after a series of events, first event first. *)
Definition run (events : list Event) (w : World) : World :=
  foldl (λ w e, run_event e w) w events.

End Events.

(** A series of [query_transcript] calls. *)
Definition query_events (queries : list str) : list Event :=
  (λ q, Call (QueryTranscript q)) <$> queries.

(** The event is one of the three add tools. *)
Definition is_add (e : Event) : bool :=
  match e with
  | Call (AddActionItem _ _) | Call (AddAgendaItem _ _) | Call (AddDecision _ _) => true
  | _ => false
  end.

(** The event is an ingestion. *)
Definition is_ingest (e : Event) : bool :=
  match e with
  | Ingest _ _ _ => true
  | Call _ => false
  end.

(** Every block the accumulator holds, section after section. *)
Definition accumulator_blocks (s : MeetingSummarizer) : list Block :=
  blocks (Agenda s) ++ blocks (Decisions s)
  ++ blocks (ActionItems s) ++ blocks (ClosingRemarks s).

(** The step [chunk_size - overlap] between two window starts, as a
    natural number. *)
Definition step_of (chunk_size overlap : Z) : nat := Z.to_nat (chunk_size - overlap).

(** The sample state after ingestion, with a run context that carries
    two processed chunk ids, one of them not in the collection. *)
Definition marked_world : World :=
  set_ctx {| processed_chunks := Some [lit "id_0"; lit "id_9"] |} ingested_world.

(** The sample state after ingestion, with a run context that carries
    the same processed chunk id twice. *)
Definition repeated_world : World :=
  set_ctx {| processed_chunks := Some [lit "id_0"; lit "id_0"] |} ingested_world.

(** The sample state with a transcript of two lines, the first ended by
    a carriage return and a line feed, in a file. *)
Definition filed_world : World :=
  set_os (put_file (lit "notes.txt") (lit "ab" ++ [13%N; 10%N] ++ lit "cd") sample_os)
         sample_world.

(** The sample state on a system where the root directory exists, as a
    directory, and where the summary file cannot be opened for writing
    because a directory has its name. *)
Definition directory_world : World :=
  set_os {| files := ∅;
            read_errors := {[ lit "/" := IOError (lit "[Errno 21] Is a directory: '/'") ]};
            write_errors :=
              {[ lit "final_summary_result.json"
                 := IOError (lit "[Errno 21] Is a directory: 'final_summary_result.json'") ]};
            uuid_source := sample_uuid; uuid_drawn := 0 |} sample_world.


(** The three kinds of item the tools add, named as the [type] they give
    their blocks. *)
Inductive Kind : Type := agenda | decision | action.

Global Instance Kind_eq_dec : EqDecision Kind.
Proof. solve_decision. Defined.





(** How many of the events are calls of an add tool. *)
Fixpoint count_adds (events : list Event) : nat :=
  match events with
  | [] => 0
  | e :: events' => (if is_add e then 1 else 0) + count_adds events'
  end.

(** The accumulator [s'] is [s] with the block [b] appended to one of the
    three sections the tools fill. *)
Definition appended (b : Block) (s s' : MeetingSummarizer) : Prop :=
  s' = {| Agenda := append_block b (Agenda s); Decisions := Decisions s;
          ActionItems := ActionItems s; ClosingRemarks := ClosingRemarks s |}
  ∨ s' = {| Agenda := Agenda s; Decisions := append_block b (Decisions s);
            ActionItems := ActionItems s; ClosingRemarks := ClosingRemarks s |}
  ∨ s' = {| Agenda := Agenda s; Decisions := Decisions s;
            ActionItems := append_block b (ActionItems s);
            ClosingRemarks := ClosingRemarks s |}.

(** The ids in the accumulator are values the generator has handed out,
    each at most once. *)
Definition ids_drawn (w : World) : Prop :=
  ∃ ks : list nat,
    id <$> accumulator_blocks (summarizer w) ≡ₚ uuid_source (os w) <$> ks
    ∧ NoDup ks
    ∧ Forall (λ k, (k < uuid_drawn (os w))%nat) ks.

(** * Properties of the Python primitives *)

Section Primitives.
Context {A : Type}.
Implicit Types (s : list A) (i n step : Z).

Lemma len_nonneg s : 0 ≤ len s.
Proof. unfold len. lia. Qed.

Lemma take_min_length s (k : nat) : take (k `min` length s) s = take k s.
Proof.
  destruct (Nat.le_gt_cases k (length s)).
  - by rewrite Nat.min_l.
  - rewrite Nat.min_r, !take_ge by lia. done.
Qed.

(** A slice from a start that is not negative, of positive width, is a
    [take] of a [drop]. *)
Lemma py_slice_window s i width :
  0 ≤ i → 0 < width →
  py_slice s i (i + width) = take (Z.to_nat width) (drop (Z.to_nat i) s).
Proof.
  intros Hi Hw. unfold py_slice, slice_bound, len.
  destruct (Z.ltb_spec i 0) as [?|_]; [lia|].
  destruct (Z.ltb_spec (i + width) 0) as [?|_]; [lia|].
  destruct (Z.le_gt_cases i (Z.of_nat (length s))).
  - rewrite <- (take_min_length (drop _ s) (Z.to_nat width)).
    rewrite length_drop. f_equal; [|f_equal]; lia.
  - rewrite !drop_ge by lia. by rewrite !take_nil.
Qed.

(** [range(0, n, step)] for a positive step. *)
Lemma py_range_window_starts n step :
  0 ≤ n → 0 < step → py_range 0 n step = Ok (window_starts n step).
Proof.
  intros Hn Hs. unfold py_range, window_starts, range_length.
  destruct (Z.eqb_spec step 0) as [?|_]; [lia|].
  destruct (Z.ltb_spec 0 step) as [_|?]; [|lia].
  f_equal. destruct (Z.ltb_spec 0 n) as [Hpos|Hz].
  - replace (n + step - 1) with (n - 0 - 1 + 1 * step) by lia.
    rewrite Z.div_add by lia. done.
  - assert (n = 0) as -> by lia. rewrite Z.div_small by lia. done.
Qed.

(** The number of window starts is the ceiling of [n / step]. *)
Lemma window_starts_length n step :
  0 ≤ n → 0 < step →
  len (window_starts n step) = (n + step - 1) / step.
Proof.
  intros Hn Hs. unfold window_starts, len.
  rewrite length_fmap, length_seq, Z2Nat.id; [done|].
  apply Z.div_pos; lia.
Qed.

Lemma ceil_div_bounds n step :
  0 ≤ n → 0 < step →
  let m := (n + step - 1) / step in (m - 1) * step < n ≤ m * step.
Proof.
  intros Hn Hs m.
  pose proof (Z.div_mod (n + step - 1) step) as Hdm.
  pose proof (Z.mod_pos_bound (n + step - 1) step Hs) as Hb.
  subst m. nia.
Qed.

Lemma window_starts_lookup n step (k : nat) i :
  0 ≤ n → 0 < step →
  window_starts n step !! k = Some i ↔ i = Z.of_nat k * step ∧ i < n.
Proof.
  intros Hn Hs. unfold window_starts.
  rewrite list_lookup_fmap, fmap_Some.
  pose proof (ceil_div_bounds n step Hn Hs) as Hc; simpl in Hc.
  assert (0 ≤ (n + step - 1) / step) by (apply Z.div_pos; lia).
  split.
  - intros (j & Hj & ->). apply lookup_seq in Hj as [-> Hlt]. split; [done|]. nia.
  - intros [-> Hlt]. exists k. split; [|done]. apply lookup_seq. split; [done|]. nia.
Qed.

Lemma window_starts_elem n step i :
  0 ≤ n → 0 < step →
  i ∈ window_starts n step ↔ ∃ k, 0 ≤ k ∧ i = k * step ∧ i < n.
Proof.
  intros Hn Hs. rewrite list_elem_of_lookup. split.
  - intros [k Hk]. apply window_starts_lookup in Hk as [-> ?]; [|done..].
    exists (Z.of_nat k). lia.
  - intros (k & Hk & -> & Hlt). exists (Z.to_nat k).
    apply window_starts_lookup; [done..|]. rewrite Z2Nat.id by done. done.
Qed.

End Primitives.

(** * Chunking *)

Section Chunking.
Context {A : Type}.
Implicit Types (D : list A) (C O : Z).

(** The chunk list of line 124, for a positive step. *)
Lemma split_chunks_windows D C O :
  0 ≤ O < C →
  split_chunks D C O
  = Ok ((λ i, py_slice D i (i + C)) <$> window_starts (len D) (C - O)).
Proof.
  intros H. unfold split_chunks.
  by rewrite py_range_window_starts by (pose proof (len_nonneg D); lia).
Qed.

(** The same list over natural numbers: window [k] is
    [take C (drop (k * (C - O)) D)]. *)
Lemma windows_take_drop D C O :
  0 ≤ O < C →
  (λ i, py_slice D i (i + C)) <$> window_starts (len D) (C - O)
  = (λ k : nat, take (Z.to_nat C) (drop (k * Z.to_nat (C - O)) D))
      <$> seq 0 (Z.to_nat ((len D + (C - O) - 1) / (C - O))).
Proof.
  intros H. unfold window_starts. rewrite <- list_fmap_compose.
  apply list_fmap_ext. intros _ k _. simpl.
  rewrite py_slice_window by nia. do 2 f_equal.
  rewrite Z2Nat.inj_mul, Nat2Z.id by lia. done.
Qed.

Lemma concat_windows (L : list A) (s p : nat) :
  concat ((λ j : nat, take s (drop (j * s) L)) <$> seq 0 p) = take (p * s) L.
Proof.
  induction p as [|p IH]; [done|].
  rewrite seq_S, fmap_app, concat_app, IH. simpl.
  rewrite app_nil_r, take_take_drop. f_equal. lia.
Qed.

Lemma drop_take_window (L : list A) (c o : nat) :
  (o ≤ c)%nat → drop o (take c L) = take (c - o) (drop o L).
Proof.
  intros H. rewrite take_drop_commute. do 2 f_equal. lia.
Qed.

Lemma rejoin_windows D (c o m : nat) :
  (o < c)%nat → (length D ≤ m * (c - o))%nat →
  rejoin (Z.of_nat o) ((λ k : nat, take c (drop (k * (c - o)) D)) <$> seq 0 m) = D.
Proof.
  intros Hoc Hm. destruct m as [|m].
  - simpl in *. destruct D; [done|simpl in Hm; lia].
  - simpl. rewrite Nat2Z.id, <- fmap_S_seq, <- !list_fmap_compose.
    erewrite (list_fmap_ext _ (λ j : nat, take (c - o) (drop (j * (c - o)) (drop c D)))).
    + rewrite concat_windows, take_take_drop. apply take_ge. simpl in Hm. lia.
    + intros _ j _. simpl. rewrite drop_take_window by lia.
      rewrite !drop_drop. do 2 f_equal. lia.
Qed.

End Chunking.

(** * Running the monad *)

Ltac run :=
  cbv beta iota delta
    [mbind M_bind bind mret M_ret ret fmap M_fmap get_world modify lift raise
     try_except read_transcript uuid4 create_block].

Lemma set_collection_same w : set_collection (collection (processor w)) w = w.
Proof. by destruct w as [[? ?] ? ? ?]. Qed.

Lemma set_collection_twice c c' w :
  set_collection c (set_collection c' w) = set_collection c w.
Proof. done. Qed.

(** * Ids and the collection *)

Lemma lit_inj : Inj (=) (=) lit.
Proof.
  assert (Inj (=) (=) N_of_ascii) as Hascii.
  { intros a b Hab. rewrite <- (ascii_N_embedding a), Hab. apply ascii_N_embedding. }
  intros s t H. unfold lit in H. apply (inj (fmap N_of_ascii)) in H.
  rewrite <- (string_of_list_ascii_of_string s), H.
  apply string_of_list_ascii_of_string.
Qed.

Lemma chunk_id_inj : Inj (=) (=) chunk_id.
Proof.
  intros i j H. unfold chunk_id, str_of_int in H.
  apply app_inv_head, lit_inj in H. by apply (inj pretty) in H.
Qed.

(** A list of distinct ids is deleted id by id. *)
Lemma collection_delete_distinct (p : TranscriptProcessor) (ids : list str) :
  ids ≠ [] → NoDup ids →
  collection_delete p ids = Ok (foldr delete (collection p) ids).
Proof.
  intros Hne Hnd. unfold collection_delete. by rewrite decide_True.
Qed.

(** A list that is empty or repeats an id is rejected. *)
Lemma collection_delete_rejected (p : TranscriptProcessor) (ids : list str) :
  ids = [] ∨ ¬ NoDup ids →
  collection_delete p ids = Raise (delete_error p ids).
Proof.
  intros Hbad. unfold collection_delete. rewrite decide_False; [done|].
  intros [Hne Hnd]. by destruct Hbad.
Qed.

(** Deleting every id a collection holds leaves it empty; when the
    collection holds none, the empty id list is rejected and the
    collection stays empty. *)
Lemma collection_delete_all (p : TranscriptProcessor) :
  match collection_delete p (collection_get_ids (collection p)) with
  | Ok m => m = ∅
  | Raise _ => collection p = ∅
  end.
Proof.
  unfold collection_get_ids.
  destruct (decide (collection p = ∅)) as [He|Hne].
  - rewrite collection_delete_rejected; [done|]. left. by rewrite He, map_to_list_empty.
  - rewrite collection_delete_distinct.
    + apply map_eq. intros i. rewrite lookup_empty.
      destruct (collection p !! i) as [c|] eqn:Hi.
      * apply lookup_foldr_delete.
        apply list_elem_of_fmap. exists (i, c). split; [done|].
        by apply elem_of_map_to_list.
      * apply eq_None_not_Some. intros [c Hc].
        apply lookup_foldr_delete_Some in Hc as [_ ?]. congruence.
    + intros Hnil. apply fmap_nil_inv in Hnil. by apply map_to_list_empty_iff in Hnil.
    + apply NoDup_fst_map_to_list.
Qed.

Lemma add_chunks_spec (chunks : list str) :
  ∀ k (m : gmap str Chunk),
    (∀ i, k ≤ i → m !! chunk_id i = None) →
    size (add_chunks k chunks m) = (size m + length chunks)%nat
    ∧ (∀ (j : nat) c, chunks !! j = Some c →
         add_chunks k chunks m !! chunk_id (k + Z.of_nat j)
         = Some (chunk_record (k + Z.of_nat j) c))
    ∧ (∀ key, (∀ i, k ≤ i → key ≠ chunk_id i) →
         add_chunks k chunks m !! key = m !! key).
Proof.
  induction chunks as [|c cs IH]; intros k m Hfree.
  - simpl. split; [lia|]. split; [|done]. intros j c Hj. by destruct j.
  - simpl. unfold collection_add at 1 2 3. rewrite (Hfree k) by lia.
    destruct (IH (k + 1) (<[chunk_id k := chunk_record k c]> m)) as (Hsize & Hget & Hother).
    { intros i Hi. rewrite lookup_insert_ne; [apply Hfree; lia|].
      intros Heq. apply chunk_id_inj in Heq. lia. }
    split; [|split].
    + rewrite Hsize, map_size_insert_None by (apply Hfree; lia). lia.
    + intros [|j] c' Hj; simpl in Hj.
      * injection Hj as <-. rewrite Z.add_0_r, Hother, lookup_insert_eq; [done|].
        intros i Hi Heq. apply chunk_id_inj in Heq. lia.
      * replace (k + Z.of_nat (S j)) with (k + 1 + Z.of_nat j) by lia. by apply Hget.
    + intros key Hkey. rewrite Hother by (intros i Hi; apply Hkey; lia).
      apply lookup_insert_ne. intros Heq. by apply (Hkey k).
Qed.

(** The ingestion loop, as one update of the collection. *)
Lemma for_each_add_chunks (chunks : list str) :
  ∀ k w,
    for_each (enumerate_from k chunks) (λ '(i, chunk),
        w ← get_world;
        modify (set_collection
                  (collection_add (chunk_id i) (chunk_record i chunk)
                                  (collection (processor w))))) w
    = (Ok (), set_collection (add_chunks k chunks (collection (processor w))) w).
Proof.
  induction chunks as [|c cs IH]; intros k w; simpl.
  - run. by rewrite set_collection_same.
  - run. fold (@for_each (Z * str)). rewrite IH. done.
Qed.

(** [process_transcript] for all parameters: it clears the collection,
    reads the transcript, and then its outcome and the state it leaves
    follow the chunk list of line 124. *)
Lemma process_transcript_split path C O w :
  process_transcript path C O w
  = match read_outcome (os w) path with
    | Ok D =>
        match split_chunks D C O with
        | Ok chunks => (Ok (len chunks), set_collection (add_chunks 0 chunks ∅) w)
        | Raise e => (Raise e, set_collection ∅ w)
        end
    | Raise e => (Raise e, set_collection ∅ w)
    end.
Proof.
  unfold process_transcript. run.
  pose proof (collection_delete_all (processor w)) as Hclear.
  destruct (collection_delete (processor w) _) as [m|e0]; simpl.
  - subst m. destruct (read_outcome (os w) path) as [D|e]; [|done]. simpl.
    destruct (split_chunks D C O) as [chunks|e]; [|done].
    unfold enumerate. by rewrite for_each_add_chunks.
  - assert (set_collection ∅ w = w) as Hw.
    { rewrite <- Hclear. apply set_collection_same. }
    rewrite Hw.
    destruct (read_outcome (os w) path) as [D|e]; [|done]. simpl.
    destruct (split_chunks D C O) as [chunks|e]; [|done].
    unfold enumerate. rewrite for_each_add_chunks. by rewrite Hclear.
Qed.

(** [process_transcript] for a positive step: the outcome and the
    collection it leaves. *)
Lemma process_transcript_run path C O w D :
  0 ≤ O < C →
  read_outcome (os w) path = Ok D →
  let chunks := (λ i, py_slice D i (i + C)) <$> window_starts (len D) (C - O) in
  process_transcript path C O w
  = (Ok (len chunks), set_collection (add_chunks 0 chunks ∅) w).
Proof.
  intros H HD chunks. rewrite process_transcript_split, HD.
  by rewrite split_chunks_windows by done.
Qed.

(** * Ingestion *)

(** C2. For [0 <= overlap < chunk_size] and a transcript that is read
    as the document [D], [process_transcript] succeeds and returns the
    number of window starts [0, C-O, 2(C-O), ...] below [len(D)]; that
    number is the ceiling of [len(D) / (C-O)]; the collection then holds
    exactly that many records, the record with id [id_k] having as its
    document the chunk [D[i : i+C]] of the [k]-th start [i]. *)
Theorem process_transcript_stores_windows
    (path : str) (C O : Z) (w : World) (D : str) :
  0 ≤ O < C →
  read_outcome (os w) path = Ok D →
  let starts := window_starts (len D) (C - O) in
  ∃ w',
    process_transcript path C O w = (Ok (len starts), w')
    ∧ (∀ (k : nat) i,
         starts !! k = Some i ↔ i = Z.of_nat k * (C - O) ∧ i < len D)
    ∧ (∀ (k : nat) i, starts !! k = Some i →
         collection (processor w') !! (lit "id_" ++ str_of_int (Z.of_nat k))
         = Some {| document := py_slice D i (i + C);
                   source := lit "chunk_" ++ str_of_int (Z.of_nat k);
                   processed := false |})
    ∧ Z.of_nat (size (collection (processor w'))) = len starts
    ∧ (len starts - 1) * (C - O) < len D ≤ len starts * (C - O).
Proof.
  intros H HD starts.
  pose proof (len_nonneg D) as Hlen0.
  pose proof (process_transcript_run path C O w D H HD) as Hrun. simpl in Hrun.
  fold starts in Hrun.
  set (chunks := (λ i, py_slice D i (i + C)) <$> starts) in *.
  assert (len chunks = len starts) as Hlen by (unfold len, chunks; by rewrite length_fmap).
  destruct (add_chunks_spec chunks 0 ∅) as (Hsize & Hget & _); [by intros; apply lookup_empty|].
  eexists. split; [by rewrite Hrun, Hlen|]. split; [|split; [|split]].
  - intros k i. apply window_starts_lookup; lia.
  - intros k i Hk. simpl. rewrite <- (Z.add_0_l (Z.of_nat k)).
    apply (Hget k (py_slice D i (i + C))).
    unfold chunks. by rewrite list_lookup_fmap, Hk.
  - simpl. rewrite Hsize, map_size_empty. unfold len in *. lia.
  - unfold starts. rewrite window_starts_length by lia.
    apply ceil_div_bounds; lia.
Qed.

Lemma process_transcript_stores_windows_witness :
  ∃ w',
    process_transcript (lit "notes.txt") 4 2 filed_world = (Ok 3, w')
    ∧ collection (processor w') !! lit "id_1"
      = Some {| document := [10%N] ++ lit "cd"; source := lit "chunk_1";
                processed := false |}
    ∧ size (collection (processor w')) = 3%nat.
Proof.
  destruct (process_transcript_stores_windows
              (lit "notes.txt") 4 2 filed_world (lit "ab" ++ [10%N] ++ lit "cd"))
    as (w' & Hrun & _ & Hget & Hsize & _); [lia|reflexivity|].
  exists w'. split; [exact Hrun|]. split.
  - apply (Hget 1%nat 2). reflexivity.
  - apply Nat2Z.inj. exact Hsize.
Defined.

(** C3. For [0 <= overlap < chunk_size], the chunk list of line 124
    gives the document back when the first chunk is followed by every
    later chunk without its first [overlap] characters; and the last
    [overlap] positions of a chunk's window are the first [overlap]
    positions of the next one, which are exactly [overlap] characters
    when both chunks are full-length. *)
Theorem split_chunks_rejoin {A} (D : list A) (C O : Z) :
  0 ≤ O < C →
  ∃ chunks,
    split_chunks D C O = Ok chunks
    ∧ rejoin O chunks = D
    ∧ ∀ (k : nat) a b,
        chunks !! k = Some a → chunks !! S k = Some b →
        drop (Z.to_nat (C - O)) a = take (Z.to_nat O) b
        ∧ (len a = C → len b = C → len (take (Z.to_nat O) b) = O).
Proof.
  intros H. pose proof (len_nonneg D) as HD.
  eexists. split; [by apply split_chunks_windows|].
  rewrite windows_take_drop by done.
  set (m := Z.to_nat ((len D + (C - O) - 1) / (C - O))).
  replace (Z.to_nat (C - O)) with (Z.to_nat C - Z.to_nat O)%nat by lia.
  split.
  - rewrite <- (Z2Nat.id O) at 1 by lia. apply rejoin_windows; [lia|].
    pose proof (ceil_div_bounds (len D) (C - O)) as Hc. simpl in Hc.
    assert (0 ≤ (len D + (C - O) - 1) / (C - O)) by (apply Z.div_pos; lia).
    unfold len in *. subst m. nia.
  - intros k a b Ha Hb.
    rewrite list_lookup_fmap, fmap_Some in Ha. destruct Ha as (k1 & Hk1 & ->).
    rewrite list_lookup_fmap, fmap_Some in Hb. destruct Hb as (k2 & Hk2 & ->).
    apply lookup_seq in Hk1 as [-> _]. apply lookup_seq in Hk2 as [-> _]. simpl.
    split.
    + rewrite drop_take_window by lia. rewrite take_take, drop_drop.
      f_equal; [lia|]. f_equal. lia.
    + unfold len. rewrite !length_take. lia.
Qed.

Lemma split_chunks_rejoin_witness :
  ∃ chunks,
    split_chunks (lit "AAAABBBBCCCC") 4 2 = Ok chunks
    ∧ rejoin 2 chunks = lit "AAAABBBBCCCC"
    ∧ ∀ (k : nat) a b,
        chunks !! k = Some a → chunks !! S k = Some b →
        drop (Z.to_nat (4 - 2)) a = take (Z.to_nat 2) b
        ∧ (len a = 4 → len b = 4 → len (take (Z.to_nat 2) b) = 2).
Proof. apply (split_chunks_rejoin (lit "AAAABBBBCCCC") 4 2). lia. Defined.

(** [process_transcript] when the step [chunk_size - overlap] is zero
    and the transcript is read. *)
Lemma process_transcript_zero_step path C w D :
  read_outcome (os w) path = Ok D →
  process_transcript path C C w
  = (Raise (ValueError (lit "range() arg 3 must not be zero")), set_collection ∅ w).
Proof.
  intros HD. rewrite process_transcript_split, HD.
  unfold split_chunks, py_range. by rewrite Z.sub_diag.
Qed.

(** [process_transcript] when the step is negative and the transcript
    is read. *)
Lemma process_transcript_negative_step path C O w D :
  read_outcome (os w) path = Ok D →
  C < O → process_transcript path C O w = (Ok 0, set_collection ∅ w).
Proof.
  intros HD H. rewrite process_transcript_split, HD.
  unfold split_chunks, py_range, range_length.
  destruct (Z.eqb_spec (C - O) 0) as [?|_]; [lia|].
  destruct (Z.ltb_spec 0 (C - O)) as [?|_]; [lia|].
  destruct (Z.ltb_spec (len D) 0) as [Hneg|_].
  { pose proof (len_nonneg D). lia. }
  done.
Qed.

(** [process_transcript] when the transcript cannot be read. *)
Lemma process_transcript_unreadable path C O w e :
  read_outcome (os w) path = Raise e →
  process_transcript path C O w = (Raise e, set_collection ∅ w).
Proof. intros He. by rewrite process_transcript_split, He. Qed.

(** C5, as the code has it. With [overlap >= chunk_size] the collection
    is empty when [process_transcript] ends. The code checks no
    parameter: when the transcript is read, the call raises only for
    [overlap = chunk_size], and then it is [range]'s [ValueError], raised
    after the collection was cleared, and it returns 0 for
    [overlap > chunk_size]; when reading the transcript raises, the call
    raises that exception. *)
Theorem process_transcript_overlap_too_large (path : str) (C O : Z) (w : World) :
  C ≤ O →
  collection (processor (process_transcript path C O w).2) = ∅
  ∧ (∀ D, read_outcome (os w) path = Ok D →
       (O = C →
        (process_transcript path C O w).1
        = Raise (ValueError (lit "range() arg 3 must not be zero")))
       ∧ (C < O → (process_transcript path C O w).1 = Ok 0))
  ∧ (∀ e, read_outcome (os w) path = Raise e →
       (process_transcript path C O w).1 = Raise e).
Proof.
  intros H. split; [|split].
  - destruct (read_outcome (os w) path) as [D|e] eqn:Hread.
    + destruct (Z.eq_dec O C) as [->|Hne].
      * by rewrite (process_transcript_zero_step _ _ _ D).
      * by rewrite (process_transcript_negative_step _ _ _ _ D) by (done || lia).
    + by rewrite (process_transcript_unreadable _ _ _ _ e).
  - intros D HD. split.
    + intros ->. by rewrite (process_transcript_zero_step _ _ _ D).
    + intros Hlt. by rewrite (process_transcript_negative_step _ _ _ _ D).
  - intros e He. by rewrite (process_transcript_unreadable _ _ _ _ e).
Qed.

Lemma process_transcript_overlap_too_large_witness :
  collection (processor (process_transcript (lit "abc") 2 2 ingested_world).2) = ∅
  ∧ (process_transcript (lit "abc") 2 2 ingested_world).1
    = Raise (ValueError (lit "range() arg 3 must not be zero"))
  ∧ (process_transcript (lit "/") 2 3 directory_world).1
    = Raise (IOError (lit "[Errno 21] Is a directory: '/'")).
Proof.
  destruct (process_transcript_overlap_too_large (lit "abc") 2 2 ingested_world)
    as (Hempty & Hread & _); [lia|].
  destruct (process_transcript_overlap_too_large (lit "/") 2 3 directory_world)
    as (_ & _ & Hfail); [lia|].
  split; [exact Hempty|]. split.
  - apply (Hread (lit "abc")); reflexivity.
  - apply Hfail. reflexivity.
Defined.

(** C5 as stated fails: with [overlap = 3 > chunk_size = 2] the call
    does not raise, it returns 0. *)
Lemma process_transcript_overlap_no_error :
  2 ≤ 3 ∧ (process_transcript (lit "abc") 2 3 sample_world).1 = Ok 0
  ∧ ¬ ∃ e, (process_transcript (lit "abc") 2 3 sample_world).1 = Raise e.
Proof.
  split; [lia|]. split; [by vm_compute|].
  intros [e He]. vm_compute in He. discriminate He.
Qed.

(** * [str.strip] *)

Lemma py_lstrip_snoc (d : str) (c : N) :
  py_isspace c = true →
  (py_lstrip (d ++ [c]) = [] ∧ py_lstrip d = [])
  ∨ py_lstrip (d ++ [c]) = py_lstrip d ++ [c].
Proof.
  intros Hc. induction d as [|x d IH]; simpl.
  - rewrite Hc. by left.
  - destruct (py_isspace x); [exact IH|by right].
Qed.

Lemma py_rstrip_snoc (s : str) (c : N) :
  py_isspace c = true → py_rstrip (s ++ [c]) = py_rstrip s.
Proof.
  intros Hc. unfold py_rstrip. rewrite reverse_snoc. simpl. by rewrite Hc.
Qed.

(** Stripping the document framed by two newlines is stripping the
    document. *)
Lemma py_strip_framed (d : str) :
  py_strip ([] ++ newline ++ d ++ newline) = py_strip d.
Proof.
  change (py_strip (10%N :: d ++ [10%N]) = py_strip d).
  unfold py_strip. change (py_lstrip (10%N :: d ++ [10%N])) with (py_lstrip (d ++ [10%N])).
  destruct (py_lstrip_snoc d 10%N) as [[-> ->]| ->]; [done..|].
  by apply py_rstrip_snoc.
Qed.

(** * The similarity query *)

Section Query.
Variable distance : str → str → Z.

Global Instance nearer_total q : Total (nearer distance q).
Proof. intros a b. unfold nearer. lia. Qed.

Global Instance nearer_trans q : Transitive (nearer distance q).
Proof. intros a b c. unfold nearer. lia. Qed.

Lemma collection_get_ids_nil (m : gmap str Chunk) :
  collection_get_ids m = [] ↔ m = ∅.
Proof.
  unfold collection_get_ids. rewrite <- map_to_list_empty_iff. split.
  - apply fmap_nil_inv.
  - by intros ->.
Qed.

(** On a collection that is not empty, the one-result query answers a
    record of the collection at least as near as every other. *)
Lemma collection_query_best (q : str) (m : gmap str Chunk) :
  m ≠ ∅ →
  ∃ i c,
    collection_query distance [q] 1 m = [[(i, c)]]
    ∧ m !! i = Some c
    ∧ ∀ j c', m !! j = Some c' →
        distance q (document c) ≤ distance q (document c').
Proof.
  intros Hne. unfold collection_query. simpl.
  pose proof (StronglySorted_merge_sort (nearer distance q) (map_to_list m)) as Hsorted.
  pose proof (merge_sort_Permutation (nearer distance q) (map_to_list m)) as Hperm.
  destruct (merge_sort (nearer distance q) (map_to_list m)) as [|[i c] rest] eqn:Hsort.
  - apply Permutation_nil_l in Hperm. symmetry in Hperm.
    by apply map_to_list_empty_iff in Hperm.
  - exists i, c. split; [done|]. split.
    + apply elem_of_map_to_list. rewrite <- Hperm. left.
    + intros j c' Hj. apply elem_of_map_to_list in Hj. rewrite <- Hperm in Hj.
      apply elem_of_cons in Hj as [Heq|Hin].
      * injection Heq as -> ->. lia.
      * apply StronglySorted_inv in Hsorted as [_ Hall].
        rewrite Forall_forall in Hall. apply (Hall _ Hin).
Qed.

(** [query_transcript] on an exhausted collection. *)
Lemma query_transcript_empty_run (q : str) (w : World) :
  collection (processor w) = ∅ →
  query_transcript distance q w = (Ok CHROMADB_EMPTY, w).
Proof.
  intros Hm. unfold query_transcript. run.
  apply collection_get_ids_nil in Hm. by rewrite Hm.
Qed.

(** [query_transcript] on a collection that holds a chunk. *)
Lemma query_transcript_run (q : str) (w : World) :
  collection (processor w) ≠ ∅ →
  ∃ i c,
    collection (processor w) !! i = Some c
    ∧ (∀ j c', collection (processor w) !! j = Some c' →
         distance q (document c) ≤ distance q (document c'))
    ∧ query_transcript distance q w
      = (Ok (py_strip (document c)),
         set_collection (delete i (collection (processor w))) w).
Proof.
  intros Hne.
  destruct (collection_query_best q _ Hne) as (i & c & Hq & Hi & Hmin).
  exists i, c. split; [done|]. split; [done|].
  unfold query_transcript. run.
  destruct (collection_get_ids (collection (processor w))) as [|i0 ids] eqn:Hids.
  { by apply collection_get_ids_nil in Hids. }
  rewrite Hq. cbn [collect_hits]. by rewrite py_strip_framed.
Qed.

(** A query never adds to the collection. *)
Lemma query_transcript_dom (q : str) (w : World) :
  dom (collection (processor (query_transcript distance q w).2))
  ⊆ dom (collection (processor w)).
Proof.
  destruct (decide (collection (processor w) = ∅)) as [He|Hne].
  - by rewrite query_transcript_empty_run.
  - destruct (query_transcript_run q w Hne) as (i & c & _ & _ & ->). simpl.
    apply subseteq_dom, delete_subseteq.
Qed.

Lemma query_log_subseteq (queries : list str) :
  ∀ w s, s ∈ query_log distance queries w → s ⊆ dom (collection (processor w)).
Proof.
  induction queries as [|q queries IH]; intros w s Hs; simpl in Hs.
  - by apply elem_of_nil in Hs.
  - apply elem_of_cons in Hs as [->|Hs].
    + intros x Hx. by apply elem_of_difference in Hx as [Hx _].
    + transitivity (dom (collection (processor (query_transcript distance q w).2))).
      * by apply IH.
      * apply query_transcript_dom.
Qed.

Lemma query_log_disjoint (queries : list str) :
  ∀ w (j k : nat) s t,
    (j < k)%nat →
    query_log distance queries w !! j = Some s →
    query_log distance queries w !! k = Some t →
    s ## t.
Proof.
  induction queries as [|q queries IH]; intros w j k s t Hjk Hj Hk; [done|].
  destruct k as [|k]; [lia|]. simpl in Hk. destruct j as [|j]; simpl in Hj.
  - injection Hj as <-.
    assert (t ⊆ dom (collection (processor (query_transcript distance q w).2)))
      as Hsub.
    { apply query_log_subseteq with queries. apply list_elem_of_lookup. eauto. }
    intros x Hs Ht. apply elem_of_difference in Hs as [_ Hs]. by apply Hs, Hsub.
  - eapply (IH _ j k); [|exact Hj|exact Hk]; lia.
Qed.

End Query.

(** * Consuming queries *)

(** C1, as the code has it. On a collection that holds a chunk,
    [query_transcript] returns the text of a best-matching chunk with
    leading and trailing whitespace stripped, and deletes that chunk's id
    before it returns: the id is gone, the collection is one record
    smaller, and over any series of queries the sets of ids removed by
    two different calls are disjoint. *)
Theorem query_transcript_consumes_best_match
    (distance : str → str → Z) (q : str) (w : World) :
  collection (processor w) ≠ ∅ →
  ∃ i c,
    collection (processor w) !! i = Some c
    ∧ (∀ j c', collection (processor w) !! j = Some c' →
         distance q (document c) ≤ distance q (document c'))
    ∧ query_transcript distance q w
      = (Ok (py_strip (document c)),
         set_collection (delete i (collection (processor w))) w)
    ∧ collection (processor (query_transcript distance q w).2) !! i = None
    ∧ S (size (collection (processor (query_transcript distance q w).2)))
      = size (collection (processor w))
    ∧ ∀ queries,
        head (query_log distance (q :: queries) w) = Some {[ i ]}
        ∧ ∀ (j k : nat) s t,
            j ≠ k →
            query_log distance (q :: queries) w !! j = Some s →
            query_log distance (q :: queries) w !! k = Some t →
            s ## t.
Proof.
  intros Hne.
  destruct (query_transcript_run distance q w Hne) as (i & c & Hi & Hmin & Hrun).
  exists i, c. split; [done|]. split; [done|]. split; [done|].
  rewrite Hrun. simpl. split; [apply lookup_delete_eq|]. split.
  { rewrite map_size_delete_Some by eauto.
    assert (size (collection (processor w)) ≠ 0%nat) by by apply map_size_non_empty_iff.
    lia. }
  intros queries. split.
  - simpl. rewrite Hrun. simpl. f_equal. rewrite dom_delete_L.
    apply elem_of_dom_2 in Hi. apply set_eq. intros x.
    rewrite !elem_of_difference, elem_of_singleton.
    split.
    + intros [Hx Hnot]. destruct (decide (x = i)) as [->|Hxi]; [done|].
      destruct Hnot. by split.
    + intros ->. split; [done|]. by intros [_ Hnot].
  - intros j k s t Hjk Hj Hk.
    destruct (Nat.lt_total j k) as [Hlt|[?|Hlt]]; [|done|].
    + by apply (query_log_disjoint distance (q :: queries) w j k).
    + symmetry. by apply (query_log_disjoint distance (q :: queries) w k j).
Qed.

Lemma query_transcript_consumes_best_match_witness :
  ∃ i c,
    collection (processor ingested_world) !! i = Some c
    ∧ query_transcript length_distance (lit "where") ingested_world
      = (Ok (py_strip (document c)),
         set_collection (delete i (collection (processor ingested_world)))
                        ingested_world).
Proof.
  destruct (query_transcript_consumes_best_match
              length_distance (lit "where") ingested_world)
    as (i & c & Hi & _ & Hrun & _).
  - intros H. apply (f_equal (λ m : gmap str Chunk, m !! lit "id_0")) in H.
    vm_compute in H. discriminate H.
  - exists i, c. split; [exact Hi|exact Hrun].
Defined.

(** C1 as stated fails on the returned text: the only chunk of the
    collection is [" a"], and the query returns ["a"]. *)
Lemma query_transcript_strips_chunk_text :
  collection (processor padded_world) !! lit "id_0"
  = Some (chunk_record 0 (lit " a"))
  ∧ size (collection (processor padded_world)) = 1%nat
  ∧ (query_transcript flat_distance (lit "where") padded_world).1 = Ok (lit "a")
  ∧ (query_transcript flat_distance (lit "where") padded_world).1 ≠ Ok (lit " a").
Proof.
  split; [by vm_compute|]. split; [by vm_compute|].
  assert ((query_transcript flat_distance (lit "where") padded_world).1
          = Ok (lit "a")) as H by by vm_compute.
  split; [exact H|]. rewrite H. intros Heq. vm_compute in Heq. discriminate Heq.
Qed.

(** C7. On a collection with no chunks, [query_transcript] returns the
    [CHROMADB_EMPTY] message, raises nothing and changes nothing. *)
Theorem query_transcript_exhausted
    (distance : str → str → Z) (q : str) (w : World) :
  collection (processor w) = ∅ →
  query_transcript distance q w
  = (Ok (lit "CHROMADB_EMPTY: All chunks have been processed."), w).
Proof. apply query_transcript_empty_run. Qed.

Lemma query_transcript_exhausted_witness :
  query_transcript length_distance (lit "where") sample_world
  = (Ok (lit "CHROMADB_EMPTY: All chunks have been processed."), sample_world).
Proof.
  apply (query_transcript_exhausted length_distance (lit "where") sample_world).
  reflexivity.
Defined.

(** * The summary accumulator *)

Lemma summarizer_add_action_item_run t c w :
  summarizer_add_action_item t c w
  = (Ok (lit "Successfully added action item: " ++ next_uuid (os w)),
     set_summarizer
       {| Agenda := Agenda (summarizer w);
          Decisions := Decisions (summarizer w);
          ActionItems := append_block (new_block "action" c w) (ActionItems (summarizer w));
          ClosingRemarks := ClosingRemarks (summarizer w) |}
       (set_os (draw_uuid (os w)) w)).
Proof. reflexivity. Qed.

Lemma summarizer_add_agenda_item_run t c w :
  summarizer_add_agenda_item t c w
  = (Ok (lit "Successfully added agenda item: " ++ next_uuid (os w)),
     set_summarizer
       {| Agenda := append_block (new_block "agenda" c w) (Agenda (summarizer w));
          Decisions := Decisions (summarizer w);
          ActionItems := ActionItems (summarizer w);
          ClosingRemarks := ClosingRemarks (summarizer w) |}
       (set_os (draw_uuid (os w)) w)).
Proof. reflexivity. Qed.

Lemma summarizer_add_decision_run t c w :
  summarizer_add_decision t c w
  = (Ok (lit "Successfully added decision: " ++ next_uuid (os w)),
     set_summarizer
       {| Agenda := Agenda (summarizer w);
          Decisions := append_block (new_block "decision" c w) (Decisions (summarizer w));
          ActionItems := ActionItems (summarizer w);
          ClosingRemarks := ClosingRemarks (summarizer w) |}
       (set_os (draw_uuid (os w)) w)).
Proof. reflexivity. Qed.

Lemma add_action_item_run t c w :
  add_action_item t c w
  = (Ok (lit "Successfully added action item: "
         ++ lit "Successfully added action item: " ++ next_uuid (os w)),
     (summarizer_add_action_item t c w).2).
Proof. reflexivity. Qed.

Lemma add_agenda_item_run t c w :
  add_agenda_item t c w
  = (Ok (lit "Successfully added agenda item: "
         ++ lit "Successfully added agenda item: " ++ next_uuid (os w)),
     (summarizer_add_agenda_item t c w).2).
Proof. reflexivity. Qed.

Lemma add_decision_run t c w :
  add_decision t c w
  = (Ok (lit "Successfully added decision: "
         ++ lit "Successfully added decision: " ++ next_uuid (os w)),
     (summarizer_add_decision t c w).2).
Proof. reflexivity. Qed.

Lemma generate_summary_run w :
  generate_summary w = (Ok (summary_of (summarizer w)), w).
Proof. reflexivity. Qed.

Section Save.
Variable model_dump_json : SummaryResponse → str.

Lemma save_final_summary_result_run w :
  save_final_summary_result model_dump_json w
  = if has_content (summarizer w) then
      match write_errors (os w) !! lit "final_summary_result.json" with
      | Some e => (Ok (write_failure e), w)
      | None =>
          (Ok (lit "Successfully saved final summary result to file"),
           set_os (put_file (lit "final_summary_result.json")
                            (model_dump_json (summary_of (summarizer w))) (os w)) w)
      end
    else (Ok NO_CONTENT, w).
Proof.
  unfold save_final_summary_result, has_content. run. simpl.
  destruct (truthy (blocks (Agenda (summarizer w)))),
    (truthy (blocks (Decisions (summarizer w)))),
    (truthy (blocks (ActionItems (summarizer w)))); simpl; try done;
    unfold write_file; run;
    (destruct (write_errors (os w) !! _) as [[?|?|?]|]; done).
Qed.
End Save.

(** * What a run preserves *)

Lemma fmap_world {A B} (f : A → B) (m : M A) w : ((f <$> m) w).2 = (m w).2.
Proof.
  unfold fmap, M_fmap, bind, ret. by destruct (m w) as [[a|e] w'].
Qed.

(** Ingestion touches the collection only. *)
Lemma process_transcript_frame path C O w :
  ∃ m, (process_transcript path C O w).2 = set_collection m w.
Proof.
  rewrite process_transcript_split.
  destruct (read_outcome (os w) path) as [D|e]; [|by eexists].
  destruct (split_chunks D C O) as [chunks|e]; by eexists.
Qed.

(** [delete_processed_chunks] in every case: the attribute is absent or
    empty, the store deletes the ids, or the store rejects the id list. *)
Lemma delete_processed_chunks_run w :
  delete_processed_chunks w
  = match processed_chunks (ctx w) with
    | None | Some [] => (Ok (lit "No chunks to delete"), w)
    | Some ids =>
        match collection_delete (processor w) ids with
        | Ok m =>
            (Ok (lit "Successfully deleted " ++ str_of_int (len ids) ++ lit " chunks"),
             set_ctx {| processed_chunks := Some [] |} (set_collection m w))
        | Raise e => (Ok (lit "Error deleting chunks: " ++ str_of_exn e), w)
        end
    end.
Proof.
  unfold delete_processed_chunks. run.
  destruct (processed_chunks (ctx w)) as [[|i ids]|]; try done.
  by destruct (collection_delete (processor w) (i :: ids)).
Qed.

Lemma delete_processed_chunks_absent w :
  processed_chunks (ctx w) = None →
  delete_processed_chunks w = (Ok (lit "No chunks to delete"), w).
Proof. intros H. unfold delete_processed_chunks. run. by rewrite H. Qed.

Section Runs.
Variable distance : str → str → Z.
Variable model_dump_json : SummaryResponse → str.

Lemma query_transcript_frame q w :
  ∃ m, (query_transcript distance q w).2 = set_collection m w.
Proof.
  destruct (decide (collection (processor w) = ∅)) as [He|Hne].
  - rewrite query_transcript_empty_run by done. exists (collection (processor w)).
    by rewrite set_collection_same.
  - destruct (query_transcript_run distance q w Hne) as (i & c & _ & _ & ->).
    by eexists.
Qed.

Lemma save_final_summary_result_frame w :
  ∃ o, (save_final_summary_result model_dump_json w).2 = set_os o w.
Proof.
  rewrite save_final_summary_result_run.
  destruct (has_content _); [destruct (write_errors _ !! _)|]; simpl;
    try (by eexists); exists (os w); by destruct w.
Qed.

(** No tool appends to the stored Closing Remarks section. *)
Lemma call_tool_closing_remarks t w :
  ClosingRemarks (summarizer (call_tool distance model_dump_json t w).2)
  = ClosingRemarks (summarizer w).
Proof.
  destruct t; unfold call_tool; rewrite fmap_world; try reflexivity.
  - by destruct (query_transcript_frame query w) as [m ->].
  - by destruct (save_final_summary_result_frame w) as [o ->].
  - rewrite delete_processed_chunks_run.
    destruct (processed_chunks (ctx w)) as [[|i ids]|]; try done.
    by destruct (collection_delete (processor w) (i :: ids)).
Qed.

(** No tool gives the run context a [processed_chunks] attribute. *)
Lemma call_tool_ctx t w :
  ctx w = new_ctx → ctx (call_tool distance model_dump_json t w).2 = new_ctx.
Proof.
  intros Hctx. destruct t; unfold call_tool; rewrite fmap_world; try exact Hctx.
  - by destruct (query_transcript_frame query w) as [m ->].
  - by destruct (save_final_summary_result_frame w) as [o ->].
  - rewrite delete_processed_chunks_absent; [done|by rewrite Hctx].
Qed.

Lemma reachable_invariant w :
  reachable distance model_dump_json w →
  ctx w = new_ctx ∧ ClosingRemarks (summarizer w) = empty_section "Closing Remarks".
Proof.
  induction 1 as [w [Hs Hc]|w path C O _ [IHc IHs]|w t _ [IHc IHs]].
  - split; [done|]. by rewrite Hs.
  - by destruct (process_transcript_frame path C O w) as [m ->].
  - split; [by apply call_tool_ctx|]. by rewrite call_tool_closing_remarks.
Qed.

End Runs.

(** * The final summary *)

Section AddedBlocks.
Variable distance : str → str → Z.
Variable model_dump_json : SummaryResponse → str.

Lemma run_cons e events w :
  run distance model_dump_json (e :: events) w
  = run distance model_dump_json events (run_event distance model_dump_json e w).
Proof. done. Qed.





End AddedBlocks.




(** * Blocks and titles *)

(** C6, as the code has it. The block an add operation appends carries a
    fresh id, the kind of the operation, the content and the color
    ["default"]; it has no title, and the operation does the same for
    every title. *)
Theorem add_item_block_ignores_title (t c : str) (w : World) :
  blocks (Agenda (summarizer (add_agenda_item t c w).2))
  = blocks (Agenda (summarizer w))
    ++ [ {| id := next_uuid (os w); type := lit "agenda"; content := c;
            color := lit "default" |} ]
  ∧ blocks (Decisions (summarizer (add_decision t c w).2))
    = blocks (Decisions (summarizer w))
      ++ [ {| id := next_uuid (os w); type := lit "decision"; content := c;
              color := lit "default" |} ]
  ∧ blocks (ActionItems (summarizer (add_action_item t c w).2))
    = blocks (ActionItems (summarizer w))
      ++ [ {| id := next_uuid (os w); type := lit "action"; content := c;
              color := lit "default" |} ]
  ∧ ∀ t', add_agenda_item t' c w = add_agenda_item t c w
          ∧ add_decision t' c w = add_decision t c w
          ∧ add_action_item t' c w = add_action_item t c w.
Proof. repeat split. Qed.

(** C6 as stated fails: two decisions added with different titles and
    the same content are the same block, so no field of a block holds
    the title. *)
Lemma add_decision_drops_title :
  lit "Budget" ≠ lit "Hiring"
  ∧ blocks (Decisions (summarizer (add_decision (lit "Budget") (lit "Approved") sample_world).2))
    = blocks (Decisions (summarizer (add_decision (lit "Hiring") (lit "Approved") sample_world).2))
  ∧ ¬ ∃ title_of : Block → str,
        ∀ t c w b,
          last (blocks (Decisions (summarizer (add_decision t c w).2))) = Some b →
          title_of b = t.
Proof.
  assert (lit "Budget" ≠ lit "Hiring") as Hne by (intros H; vm_compute in H; discriminate H).
  split; [exact Hne|]. split; [reflexivity|].
  intros [title_of H]. apply Hne.
  rewrite <- (H (lit "Budget") (lit "Approved") sample_world _ eq_refl).
  by rewrite <- (H (lit "Hiring") (lit "Approved") sample_world _ eq_refl).
Qed.

(** C8, as the code has it. The add operations never fail: for every
    title, the empty one included, and every content they return their
    status string. *)
Theorem add_item_never_fails (t c : str) (w : World) :
  (add_agenda_item t c w).1
  = Ok (lit "Successfully added agenda item: "
        ++ lit "Successfully added agenda item: " ++ next_uuid (os w))
  ∧ (add_decision t c w).1
    = Ok (lit "Successfully added decision: "
          ++ lit "Successfully added decision: " ++ next_uuid (os w))
  ∧ (add_action_item t c w).1
    = Ok (lit "Successfully added action item: "
          ++ lit "Successfully added action item: " ++ next_uuid (os w)).
Proof. repeat split. Qed.

(** C8 as stated fails: with an empty title the add operation succeeds
    and appends a block. *)
Lemma add_action_item_empty_title_succeeds :
  (add_action_item [] (lit "Send notes") sample_world).1
  = Ok (lit "Successfully added action item: Successfully added action item: uuid-0")
  ∧ length (blocks (ActionItems
              (summarizer (add_action_item [] (lit "Send notes") sample_world).2))) = 1%nat
  ∧ ¬ ∃ e, (add_action_item [] (lit "Send notes") sample_world).1 = Raise e.
Proof.
  split; [by vm_compute|]. split; [reflexivity|].
  intros [e He]. discriminate He.
Qed.

(** * Closing remarks and the run context *)



(** C10. In every reachable state the run context has no
    [processed_chunks] attribute, so [delete_processed_chunks] returns
    ["No chunks to delete"] and leaves the state, the collection
    included, as it was. *)
Theorem delete_processed_chunks_is_noop
    (distance : str → str → Z) (model_dump_json : SummaryResponse → str)
    (w : World) :
  reachable distance model_dump_json w →
  processed_chunks (ctx w) = None
  ∧ delete_processed_chunks w = (Ok (lit "No chunks to delete"), w).
Proof.
  intros Hreach. apply reachable_invariant in Hreach as [Hctx _].
  assert (processed_chunks (ctx w) = None) as Hnone by by rewrite Hctx.
  split; [done|]. by apply delete_processed_chunks_absent.
Qed.

Lemma delete_processed_chunks_is_noop_witness :
  processed_chunks (ctx ingested_world) = None
  ∧ delete_processed_chunks ingested_world
    = (Ok (lit "No chunks to delete"), ingested_world).
Proof.
  apply (delete_processed_chunks_is_noop length_distance sample_dump ingested_world).
  apply reach_ingest, reach_initial. split; reflexivity.
Defined.

(** * More on ingestion *)

(** The chunk list raises exactly when the step is zero. *)
Lemma split_chunks_raise_iff {A} (D : list A) C O :
  (∃ e, split_chunks D C O = Raise e) ↔ C = O.
Proof.
  unfold split_chunks, py_range. destruct (Z.eqb_spec (C - O) 0) as [Hz|Hnz].
  - split; [lia|]. by eexists.
  - split; [by intros [e He]|lia].
Qed.

(** Every record the ingestion loop adds to an empty collection is the
    record of one of the chunks, under that chunk's id. *)
Lemma add_chunks_lookup_Some (chunks : list str) :
  ∀ k (m : gmap str Chunk) key r,
    (∀ i, k ≤ i → m !! chunk_id i = None) →
    add_chunks k chunks m !! key = Some r →
    m !! key = Some r
    ∨ ∃ (j : nat) c, chunks !! j = Some c
        ∧ key = chunk_id (k + Z.of_nat j) ∧ r = chunk_record (k + Z.of_nat j) c.
Proof.
  induction chunks as [|c cs IH]; intros k m key r Hfree Hkey; simpl in Hkey.
  - by left.
  - unfold collection_add in Hkey. rewrite (Hfree k) in Hkey by lia.
    apply IH in Hkey as [Hkey|(j & c' & Hj & -> & ->)].
    + apply lookup_insert_Some in Hkey as [[<- <-]|[_ Hkey]]; [|by left].
      right. exists 0%nat, c. by rewrite Z.add_0_r.
    + right. exists (S j), c'. split; [done|].
      by replace (k + Z.of_nat (S j)) with (k + 1 + Z.of_nat j) by lia.
    + intros i Hi. rewrite lookup_insert_ne; [apply Hfree; lia|].
      intros Heq. apply chunk_id_inj in Heq. lia.
Qed.

(** X1. [process_transcript] raises in two cases only: reading the
    transcript raises, and the call raises that exception; or the
    transcript is read and [chunk_size = overlap], and the call raises
    [range]'s [ValueError]. For every other pair of parameters, whatever
    their signs, it returns a count that is not negative. *)
Theorem process_transcript_raises_iff (path : str) (C O : Z) (w : World) :
  ((∃ e, (process_transcript path C O w).1 = Raise e)
   ↔ (∃ e, read_outcome (os w) path = Raise e) ∨ C = O)
  ∧ (∀ e, read_outcome (os w) path = Raise e →
       (process_transcript path C O w).1 = Raise e)
  ∧ (∀ D, read_outcome (os w) path = Ok D →
       (C = O →
        (process_transcript path C O w).1
        = Raise (ValueError (lit "range() arg 3 must not be zero")))
       ∧ (C ≠ O → ∃ n, (process_transcript path C O w).1 = Ok n ∧ 0 ≤ n)).
Proof.
  rewrite process_transcript_split.
  destruct (read_outcome (os w) path) as [D|e0] eqn:Hread.
  2:{ split; [|split]; [| |done].
      - split; [intros _; left; by eexists|intros _; by eexists].
      - by intros e [= <-]. }
  pose proof (split_chunks_raise_iff D C O) as Hiff.
  destruct (split_chunks D C O) as [chunks|e] eqn:Hsplit; simpl.
  - assert (C ≠ O) as Hne by (intros HCO; apply Hiff in HCO as [e He]; done).
    split; [|split]; [|done|].
    + split; [by intros [e He]|]. by intros [[e He]|?].
    + intros D' [= <-]. split; [done|]. intros _.
      exists (len chunks). split; [done|apply len_nonneg].
  - assert (C = O) as -> by (apply Hiff; by eexists).
    split; [|split]; [|done|].
    + split; [by right|by eexists].
    + intros D' [= <-]. split; [|done]. intros _.
      unfold split_chunks, py_range in Hsplit.
      rewrite Z.sub_diag in Hsplit. simpl in Hsplit. by injection Hsplit as <-.
Qed.

(** X2. Ingestion replaces the collection and touches nothing else: its
    result does not depend on what the collection held before, so
    ingesting the same transcript twice leaves the same state as
    ingesting it once, and the summarizer, the run context and the
    operating system are as before. *)
Theorem process_transcript_replaces_collection
    (path : str) (C O : Z) (w : World) (m : gmap str Chunk) :
  process_transcript path C O (set_collection m w) = process_transcript path C O w
  ∧ process_transcript path C O (process_transcript path C O w).2
    = process_transcript path C O w
  ∧ summarizer (process_transcript path C O w).2 = summarizer w
  ∧ ctx (process_transcript path C O w).2 = ctx w
  ∧ os (process_transcript path C O w).2 = os w.
Proof.
  assert (∀ m', process_transcript path C O (set_collection m' w)
                = process_transcript path C O w) as Hindep.
  { intros m'. rewrite !process_transcript_split. simpl.
    destruct (read_outcome (os w) path) as [D|e]; [|done].
    by destruct (split_chunks D C O). }
  split; [apply Hindep|].
  destruct (process_transcript_frame path C O w) as [m' Hm'].
  rewrite Hm'. split; [apply Hindep|done].
Qed.

(** * The shape of the chunks *)

Section ChunkShape.
Context {A : Type}.
Implicit Types (D : list A) (C O : Z).

(** The number of windows, and which windows exist. *)
Lemma window_count_lt (n s : Z) (k : nat) :
0 ≤ n → 0 < s →
(k < Z.to_nat ((n + s - 1) / s))%nat ↔ Z.of_nat k * s < n.
Proof.
intros Hn Hs. pose proof (ceil_div_bounds n s Hn Hs) as Hc. simpl in Hc.
assert (0 ≤ (n + s - 1) / s) by (apply Z.div_pos; lia).
split; intros Hk; nia.
Qed.

(** The chunk list for a positive chunk size and a positive step, the
  overlap being of any sign. *)
Lemma split_chunks_positive D C O :
0 < C → O < C →
split_chunks D C O
= Ok ((λ k : nat, take (Z.to_nat C) (drop (k * step_of C O) D))
        <$> seq 0 (Z.to_nat ((len D + (C - O) - 1) / (C - O)))).
Proof.
intros HC HO. pose proof (len_nonneg D). unfold split_chunks.
rewrite py_range_window_starts by lia. f_equal.
unfold window_starts. rewrite <- list_fmap_compose.
apply list_fmap_ext. intros _ k _. simpl.
rewrite py_slice_window by nia. do 2 f_equal.
unfold step_of. rewrite Z2Nat.inj_mul, Nat2Z.id by lia. done.
Qed.

Lemma split_chunks_positive_lookup D C O chunks (k : nat) c :
0 < C → O < C →
split_chunks D C O = Ok chunks →
chunks !! k = Some c
↔ (k * step_of C O < length D)%nat
  ∧ c = take (Z.to_nat C) (drop (k * step_of C O) D).
Proof.
intros HC HO Hsplit. pose proof (len_nonneg D) as Hlen.
rewrite split_chunks_positive in Hsplit by done. injection Hsplit as <-.
rewrite list_lookup_fmap, fmap_Some.
assert ((k < Z.to_nat ((len D + (C - O) - 1) / (C - O)))%nat
        ↔ (k * step_of C O < length D)%nat) as Hk.
{ rewrite window_count_lt by lia. unfold len, step_of. nia. }
split.
- intros (k' & Hk' & ->). apply lookup_seq in Hk' as [-> Hlt]. simpl in *.
  split; [by apply Hk|done].
- intros [Hlt ->]. exists k. split; [|done]. apply lookup_seq. split; [done|].
  by apply Hk.
Qed.

End ChunkShape.

(** X4. For a positive chunk size and an overlap below it, negative
    overlaps included, the chunk list holds the document's characters at
    their places: chunk [k] has the character [x] at offset [j] exactly
    when [j < chunk_size] and [x] is the document's character at
    position [k * (chunk_size - overlap) + j]. Every chunk is non-empty
    and has [min(chunk_size, len(D) - k * (chunk_size - overlap))]
    characters. *)
Theorem split_chunks_content {A} (D : list A) (C O : Z) :
  0 < C → O < C →
  ∃ chunks,
    split_chunks D C O = Ok chunks
    ∧ (∀ (k j : nat) x,
         (∃ c, chunks !! k = Some c ∧ c !! j = Some x)
         ↔ (j < Z.to_nat C)%nat ∧ D !! (k * step_of C O + j)%nat = Some x)
    ∧ (∀ (k : nat) c,
         chunks !! k = Some c →
         (1 ≤ length c)%nat
         ∧ length c = (Z.to_nat C `min` (length D - k * step_of C O))%nat).
Proof.
  intros HC HO.
  destruct (split_chunks D C O) as [chunks|e] eqn:Hsplit.
  2:{ assert (C = O) by (apply (split_chunks_raise_iff D); by eexists). lia. }
  exists chunks. split; [done|]. split.
  - intros k j x. split.
    + intros (c & Hc & Hj).
      apply (split_chunks_positive_lookup D C O) in Hc as [_ ->]; [|done..].
      apply lookup_take_Some in Hj as [Hj Hlt]. by rewrite lookup_drop in Hj.
    + intros [Hlt Hx]. eexists. split.
      * apply (split_chunks_positive_lookup D C O); [done..|]. split; [|done].
        apply lookup_lt_Some in Hx. lia.
      * apply lookup_take_Some. by rewrite lookup_drop.
  - intros k c Hc.
    apply (split_chunks_positive_lookup D C O) in Hc as [Hk ->]; [|done..].
    rewrite length_take, length_drop. lia.
Qed.

Lemma split_chunks_content_witness :
  ∃ chunks,
    split_chunks (lit "AAAABBBBCCCC") 4 (-2) = Ok chunks
    ∧ (∀ (k j : nat) x,
         (∃ c, chunks !! k = Some c ∧ c !! j = Some x)
         ↔ (j < Z.to_nat 4)%nat
           ∧ lit "AAAABBBBCCCC" !! (k * step_of 4 (-2) + j)%nat = Some x)
    ∧ (∀ (k : nat) c,
         chunks !! k = Some c →
         (1 ≤ length c)%nat
         ∧ length c
           = (Z.to_nat 4 `min` (length (lit "AAAABBBBCCCC") - k * step_of 4 (-2)))%nat).
Proof. apply (split_chunks_content (lit "AAAABBBBCCCC") 4 (-2)); lia. Defined.

(** X5. Which positions of the document reach a chunk: position [p] is
    in some chunk exactly when [p mod (chunk_size - overlap) <
    chunk_size]. With an overlap that is not negative this is every
    position; with a negative overlap the [-overlap] characters after
    each chunk are in no chunk, the one at position [chunk_size] among
    them. *)
Theorem split_chunks_coverage {A} (D : list A) (C O : Z) :
  0 < C → O < C →
  ∃ chunks,
    split_chunks D C O = Ok chunks
    ∧ (∀ p : nat,
         (p < length D)%nat →
         (∃ (k j : nat) c, chunks !! k = Some c ∧ (j < length c)%nat
                           ∧ p = (k * step_of C O + j)%nat)
         ↔ (p `mod` step_of C O < Z.to_nat C)%nat)
    ∧ (0 ≤ O → ∀ p : nat, (p < length D)%nat →
         ∃ (k j : nat) c, chunks !! k = Some c ∧ (j < length c)%nat
                          ∧ p = (k * step_of C O + j)%nat)
    ∧ (O < 0 → C < len D →
         ¬ ∃ (k j : nat) c, chunks !! k = Some c ∧ (j < length c)%nat
                            ∧ Z.to_nat C = (k * step_of C O + j)%nat).
Proof.
  intros HC HO.
  destruct (split_chunks D C O) as [chunks|e] eqn:Hsplit.
  2:{ assert (C = O) by (apply (split_chunks_raise_iff D); by eexists). lia. }
  exists chunks. split; [done|].
  set (s := step_of C O). assert (0 < s)%nat as Hs by (unfold s, step_of; lia).
  assert (∀ p : nat, (p < length D)%nat →
            (∃ (k j : nat) c, chunks !! k = Some c ∧ (j < length c)%nat
                              ∧ p = (k * s + j)%nat)
            ↔ (p `mod` s < Z.to_nat C)%nat) as Hcover.
  { intros p Hp. split.
    - intros (k & j & c & Hc & Hj & ->).
      apply (split_chunks_positive_lookup D C O) in Hc as [Hk ->]; [|done..].
      rewrite length_take, length_drop in Hj.
      destruct (Z_lt_le_dec O 0) as [Hneg|Hpos].
      + rewrite Nat.add_comm, Nat.Div0.mod_add, Nat.mod_small; unfold s, step_of; lia.
      + pose proof (Nat.mod_upper_bound (k * s + j) s). unfold s, step_of in *. lia.
    - intros Hmod. exists (p / s)%nat, (p `mod` s)%nat.
      pose proof (Nat.div_mod_eq p s) as Hdm.
      eexists. split; [|split].
      + apply (split_chunks_positive_lookup D C O); [done..|]. split; [|done].
        fold s. nia.
      + rewrite length_take, length_drop. fold s. nia.
      + nia. }
  split; [exact Hcover|]. split.
  - intros HO' p Hp. apply Hcover; [done|].
    pose proof (Nat.mod_upper_bound p s). unfold s, step_of in *. lia.
  - intros HO' Hlen Hex. apply Hcover in Hex; [|unfold len in Hlen; lia].
    rewrite Nat.mod_small in Hex; unfold s, step_of in *; lia.
Qed.

Lemma split_chunks_coverage_witness :
  ∃ chunks,
    split_chunks (lit "AAAABBBBCCCC") 4 (-2) = Ok chunks
    ∧ ¬ ∃ (k j : nat) c, chunks !! k = Some c ∧ (j < length c)%nat
                         ∧ Z.to_nat 4 = (k * step_of 4 (-2) + j)%nat.
Proof.
  destruct (split_chunks_coverage (lit "AAAABBBBCCCC") 4 (-2))
    as (chunks & Hsplit & _ & _ & Hgap); [lia..|].
  exists chunks. split; [exact Hsplit|]. apply Hgap; [lia|]. vm_compute. reflexivity.
Defined.

(** * What the collection holds after ingestion *)

(** X6. Every record in the collection after [process_transcript], for
    any parameters, is the record of a chunk: its id is [id_k] for some
    [k] below the returned count, its source is [chunk_k] and its
    [processed] flag is [False]. For a positive chunk size and an
    overlap below it, its document is not empty and has at most
    [chunk_size] characters. *)
Theorem process_transcript_records
    (path : str) (C O : Z) (w : World) (i : str) (r : Chunk) :
  collection (processor (process_transcript path C O w).2) !! i = Some r →
  ∃ (k : nat) n,
    (process_transcript path C O w).1 = Ok n
    ∧ Z.of_nat k < n
    ∧ i = lit "id_" ++ str_of_int (Z.of_nat k)
    ∧ source r = lit "chunk_" ++ str_of_int (Z.of_nat k)
    ∧ processed r = false
    ∧ (0 < C → O < C → 1 ≤ len (document r) ≤ C).
Proof.
  rewrite process_transcript_split.
  destruct (read_outcome (os w) path) as [D|e]; simpl; [|done].
  destruct (split_chunks D C O) as [chunks|e] eqn:Hsplit; simpl; [|done].
  intros Hi. apply add_chunks_lookup_Some in Hi as [Hi|(k & c & Hk & -> & ->)];
    [done| |by intros; apply lookup_empty].
  exists k, (len chunks). rewrite Z.add_0_l. split; [done|]. split.
  { apply lookup_lt_Some in Hk. unfold len. lia. }
  split; [done|]. split; [done|]. split; [done|].
  intros HC HO. simpl.
  destruct (proj1 (split_chunks_positive_lookup _ C O chunks k c HC HO Hsplit) Hk)
    as [Hlt Hc].
  rewrite Hc. unfold len. rewrite length_take, length_drop. lia.
Qed.

Lemma process_transcript_records_witness :
  ∃ (k : nat) n,
    (process_transcript (lit " ab cd ef") 3 1 sample_world).1 = Ok n
    ∧ Z.of_nat k < n
    ∧ lit "id_4" = lit "id_" ++ str_of_int (Z.of_nat k)
    ∧ source (chunk_record 4 (lit "f")) = lit "chunk_" ++ str_of_int (Z.of_nat k)
    ∧ processed (chunk_record 4 (lit "f")) = false
    ∧ (0 < 3 → 1 < 3 → 1 ≤ len (document (chunk_record 4 (lit "f"))) ≤ 3).
Proof.
  apply (process_transcript_records (lit " ab cd ef") 3 1 sample_world
           (lit "id_4") (chunk_record 4 (lit "f"))).
  vm_compute. reflexivity.
Defined.

(** * What the tools do to the collection *)

Lemma foldr_delete_subseteq (ids : list str) (m : gmap str Chunk) :
  foldr delete m ids ⊆ m.
Proof.
  induction ids as [|i ids IH]; simpl; [done|].
  etransitivity; [apply delete_subseteq|exact IH].
Qed.

Lemma collection_delete_subseteq (p : TranscriptProcessor) (ids : list str) m :
  collection_delete p ids = Ok m → m ⊆ collection p.
Proof.
  unfold collection_delete. destruct (decide _); [|done].
  intros [= <-]. apply foldr_delete_subseteq.
Qed.

Section ToolsAndCollection.
Variable distance : str → str → Z.
Variable model_dump_json : SummaryResponse → str.

(** A tool call adds no record and changes none. *)
Lemma call_tool_collection t w :
collection (processor (call_tool distance model_dump_json t w).2)
⊆ collection (processor w).
Proof.
destruct t; unfold call_tool; rewrite fmap_world; try reflexivity.
- destruct (decide (collection (processor w) = ∅)) as [He|Hne].
  + by rewrite query_transcript_empty_run.
  + destruct (query_transcript_run distance query w Hne) as (i & c & _ & _ & ->).
    apply delete_subseteq.
- by destruct (save_final_summary_result_frame model_dump_json w) as [o ->].
- rewrite delete_processed_chunks_run.
  destruct (processed_chunks (ctx w)) as [[|i ids]|]; try reflexivity.
  destruct (collection_delete (processor w) (i :: ids)) as [m|e] eqn:Hdel;
    [|reflexivity].
  by apply collection_delete_subseteq in Hdel.
Qed.

Lemma run_tools_collection events :
∀ w,
  Forall (λ e, is_ingest e = false) events →
  collection (processor (run distance model_dump_json events w))
  ⊆ collection (processor w).
Proof.
induction events as [|e events IH]; intros w Hev; [done|].
apply Forall_cons in Hev as [He Hev]. rewrite run_cons.
etransitivity; [by apply IH|].
destruct e as [p C O|t]; [done|]. apply call_tool_collection.
Qed.

(** Every record has its [processed] flag unset. *)
Lemma run_unprocessed events :
∀ w,
  (∀ i r, collection (processor w) !! i = Some r → processed r = false) →
  ∀ i r,
    collection (processor (run distance model_dump_json events w)) !! i = Some r →
    processed r = false.
Proof.
induction events as [|e events IH]; intros w Hw; [done|].
rewrite run_cons. apply IH. intros i r Hi.
destruct e as [p C O|t]; simpl in Hi.
- by apply process_transcript_records in Hi as (k & n & _ & _ & _ & _ & Hp & _).
- apply (Hw i). eapply lookup_weaken; [exact Hi|apply call_tool_collection].
Qed.

End ToolsAndCollection.

(** X7. Tool calls never add a chunk and never change one: after any
    series of tool calls, every record in the collection was there
    before, under the same id and with the same content. Only ingestion
    adds records. *)
Theorem tools_only_remove_chunks
    (distance : str → str → Z) (model_dump_json : SummaryResponse → str)
    (calls : list ToolCall) (w : World) :
  collection (processor (run distance model_dump_json (Call <$> calls) w))
  ⊆ collection (processor w)
  ∧ ∀ i r,
      collection (processor (run distance model_dump_json (Call <$> calls) w)) !! i
      = Some r →
      collection (processor w) !! i = Some r.
Proof.
  assert (collection (processor (run distance model_dump_json (Call <$> calls) w))
          ⊆ collection (processor w)) as Hsub.
  { apply run_tools_collection. apply Forall_fmap. by apply Forall_true. }
  split; [exact Hsub|]. intros i r Hi. by eapply lookup_weaken.
Qed.

(** X8. The [processed] flag is never set: after an ingestion, whatever
    tool calls and further ingestions follow, every record in the
    collection has [processed = False]. *)
Theorem processed_flag_never_set
    (distance : str → str → Z) (model_dump_json : SummaryResponse → str)
    (path : str) (C O : Z) (events : list Event) (w : World) (i : str) (r : Chunk) :
  collection (processor
    (run distance model_dump_json (Ingest path C O :: events) w)) !! i = Some r →
  processed r = false.
Proof.
  rewrite run_cons. apply run_unprocessed. simpl. intros j r' Hj.
  by apply process_transcript_records in Hj as (k & n & _ & _ & _ & _ & Hp & _).
Qed.

Lemma processed_flag_never_set_witness :
  processed (chunk_record 1 (lit "b c")) = false.
Proof.
  apply (processed_flag_never_set length_distance sample_dump
           (lit " ab cd ef") 3 1
           [Call (QueryTranscript (lit "where")); Call DeleteProcessedChunks]
           sample_world (lit "id_1") (chunk_record 1 (lit "b c"))).
  vm_compute. reflexivity.
Defined.

(** * Exhausting the store *)

Section Exhaustion.
Variable distance : str → str → Z.
Variable model_dump_json : SummaryResponse → str.

(** One query takes one record, if there is one. *)
Lemma query_transcript_size q w :
size (collection (processor (query_transcript distance q w).2))
= pred (size (collection (processor w))).
Proof.
destruct (decide (collection (processor w) = ∅)) as [He|Hne].
- rewrite query_transcript_empty_run by done. simpl. by rewrite He, map_size_empty.
- destruct (query_transcript_run distance q w Hne) as (i & c & Hi & _ & ->).
  simpl. by rewrite map_size_delete_Some by eauto.
Qed.

Lemma run_queries_size queries :
∀ w,
  size (collection (processor (run distance model_dump_json (query_events queries) w)))
  = (size (collection (processor w)) - length queries)%nat.
Proof.
induction queries as [|q queries IH]; intros w.
- simpl. lia.
- change (query_events (q :: queries))
    with (Call (QueryTranscript q) :: query_events queries).
  rewrite run_cons, IH. simpl.
  rewrite fmap_world, query_transcript_size. lia.
Qed.

End Exhaustion.

(** X9. Each [query_transcript] call takes one chunk out of the
    collection until none is left: after a series of queries the
    collection holds as many records as before minus the number of
    queries, and never fewer than none. Once there were at least as many
    queries as records, every further query returns the
    [CHROMADB_EMPTY] message and changes nothing. *)
Theorem queries_exhaust_collection
    (distance : str → str → Z) (model_dump_json : SummaryResponse → str)
    (queries : list str) (w : World) :
  let w' := run distance model_dump_json (query_events queries) w in
  size (collection (processor w'))
  = (size (collection (processor w)) - length queries)%nat
  ∧ ((size (collection (processor w)) ≤ length queries)%nat →
     ∀ q, query_transcript distance q w'
          = (Ok (lit "CHROMADB_EMPTY: All chunks have been processed."), w')).
Proof.
  intros w'. pose proof (run_queries_size distance model_dump_json queries w) as Hsize.
  fold w' in Hsize. split; [exact Hsize|].
  intros Hle q. apply query_transcript_empty_run.
  apply map_size_empty_iff. lia.
Qed.

Lemma queries_exhaust_collection_witness :
  query_transcript length_distance (lit "f")
    (run length_distance sample_dump
       (query_events [lit "a"; lit "b"; lit "c"; lit "d"; lit "e"]) ingested_world)
  = (Ok (lit "CHROMADB_EMPTY: All chunks have been processed."),
     run length_distance sample_dump
       (query_events [lit "a"; lit "b"; lit "c"; lit "d"; lit "e"]) ingested_world).
Proof.
  apply (queries_exhaust_collection length_distance sample_dump
           [lit "a"; lit "b"; lit "c"; lit "d"; lit "e"] ingested_world).
  vm_compute. lia.
Defined.

(** X10. Ingestion bounds the number of useful queries by the count it
    returns: when [process_transcript] returns [n], the collection holds
    [n] records, each following query takes one, and once [n] queries
    were made every further query returns the [CHROMADB_EMPTY]
    message. *)
Theorem ingest_then_queries
    (distance : str → str → Z) (model_dump_json : SummaryResponse → str)
    (path : str) (C O : Z) (n : Z) (queries : list str) (w : World) :
  (process_transcript path C O w).1 = Ok n →
  let w' := run distance model_dump_json (Ingest path C O :: query_events queries) w in
  size (collection (processor w')) = (Z.to_nat n - length queries)%nat
  ∧ (n ≤ Z.of_nat (length queries) →
     ∀ q, query_transcript distance q w'
          = (Ok (lit "CHROMADB_EMPTY: All chunks have been processed."), w')).
Proof.
  intros Hn w'. unfold w'. rewrite run_cons. simpl.
  assert (size (collection (processor (process_transcript path C O w).2)) = Z.to_nat n)
    as Hsize.
  { revert Hn. rewrite process_transcript_split.
    destruct (read_outcome (os w) path) as [D|e]; simpl; [|done].
    destruct (split_chunks D C O) as [chunks|e]; simpl; [|done].
    intros [= <-]. destruct (add_chunks_spec chunks 0 ∅) as (Hsize & _).
    { intros. apply lookup_empty. }
    rewrite Hsize, map_size_empty. unfold len. lia. }
  rewrite run_queries_size, Hsize. split; [done|].
  intros Hle q. apply query_transcript_empty_run, map_size_empty_iff.
  rewrite run_queries_size, Hsize. lia.
Qed.

Lemma ingest_then_queries_witness :
  size (collection (processor
    (run length_distance sample_dump
       (Ingest (lit " ab cd ef") 3 1 :: query_events [lit "a"; lit "b"]) sample_world)))
  = (Z.to_nat 5 - 2)%nat.
Proof.
  apply (ingest_then_queries length_distance sample_dump
           (lit " ab cd ef") 3 1 5 [lit "a"; lit "b"] sample_world).
  vm_compute. reflexivity.
Defined.

(** * The text a query returns *)

Lemma py_lstrip_split (s : str) :
  ∃ pre, s = pre ++ py_lstrip s
         ∧ Forall (λ x, py_isspace x = true) pre
         ∧ ∀ x, head (py_lstrip s) = Some x → py_isspace x = false.
Proof.
  induction s as [|c s (pre & Hs & Hpre & Hhead)]; simpl.
  - exists []. by repeat split.
  - destruct (py_isspace c) eqn:Hc.
    + exists (c :: pre). split; [by rewrite Hs at 1|]. split; [by constructor|done].
    + exists []. split; [done|]. split; [done|]. by intros x [= <-].
Qed.

(** [strip] removes whitespace from both ends and nothing else. *)
Lemma py_strip_split (s : str) :
  ∃ pre post,
    s = pre ++ py_strip s ++ post
    ∧ Forall (λ x, py_isspace x = true) pre
    ∧ Forall (λ x, py_isspace x = true) post
    ∧ (∀ x, head (py_strip s) = Some x → py_isspace x = false)
    ∧ (∀ x, last (py_strip s) = Some x → py_isspace x = false).
Proof.
  destruct (py_lstrip_split s) as (pre & Hs & Hpre & Hhead).
  destruct (py_lstrip_split (reverse (py_lstrip s))) as (tsop & Hr & Htsop & Hlast).
  exists pre, (reverse tsop). unfold py_strip, py_rstrip.
  assert (py_lstrip s
          = reverse (py_lstrip (reverse (py_lstrip s))) ++ reverse tsop) as Hl.
  { rewrite <- reverse_app, <- Hr. by rewrite reverse_involutive. }
  split; [by rewrite <- Hl|]. split; [done|]. split; [by apply Forall_reverse|].
  split.
  - intros x Hx. apply Hhead. rewrite Hl. by rewrite head_app, Hx.
  - intros x Hx. apply Hlast. by rewrite <- last_reverse.
Qed.

(** X11. The text [query_transcript] returns for a chunk is the chunk's
    text without its leading and trailing whitespace and nothing else
    removed: the chunk is whitespace, then the returned text, then
    whitespace, and the returned text neither starts nor ends with a
    whitespace character; it is empty when the chunk is whitespace
    only. *)
Theorem query_transcript_text_trimmed
    (distance : str → str → Z) (q : str) (w : World) :
  collection (processor w) ≠ ∅ →
  ∃ i c text pre post,
    collection (processor w) !! i = Some c
    ∧ (query_transcript distance q w).1 = Ok text
    ∧ document c = pre ++ text ++ post
    ∧ Forall (λ x, py_isspace x = true) pre
    ∧ Forall (λ x, py_isspace x = true) post
    ∧ (∀ x, head text = Some x → py_isspace x = false)
    ∧ (∀ x, last text = Some x → py_isspace x = false)
    ∧ (Forall (λ x, py_isspace x = true) (document c) → text = []).
Proof.
  intros Hne.
  destruct (query_transcript_run distance q w Hne) as (i & c & Hi & _ & Hrun).
  destruct (py_strip_split (document c)) as (pre & post & Hdoc & Hpre & Hpost & Hh & Hl).
  exists i, c, (py_strip (document c)), pre, post.
  rewrite Hrun. repeat (split; [done|]).
  intros Hall. destruct (py_strip (document c)) as [|x text] eqn:Htext; [done|].
  rewrite Hdoc in Hall. apply Forall_app in Hall as [_ Hall].
  apply Forall_app in Hall as [Hall _]. apply Forall_cons in Hall as [Hx _].
  by rewrite (Hh x eq_refl) in Hx.
Qed.

Lemma query_transcript_text_trimmed_witness :
  ∃ i c text pre post,
    collection (processor padded_world) !! i = Some c
    ∧ (query_transcript flat_distance (lit "where") padded_world).1 = Ok text
    ∧ document c = pre ++ text ++ post
    ∧ Forall (λ x, py_isspace x = true) pre
    ∧ Forall (λ x, py_isspace x = true) post.
Proof.
  destruct (query_transcript_text_trimmed flat_distance (lit "where") padded_world)
    as (i & c & text & pre & post & Hi & Hq & Hdoc & Hpre & Hpost & _).
  - intros H. apply (f_equal (λ m : gmap str Chunk, m !! lit "id_0")) in H.
    vm_compute in H. discriminate H.
  - exists i, c, text, pre, post. repeat split; assumption.
Defined.

(** * [delete_processed_chunks] on a run context that carries ids *)

(** X12. When the run context carries a non-empty [processed_chunks]
    of distinct ids, [delete_processed_chunks] removes exactly those ids
    from the collection, leaves every other record as it was, empties
    the attribute, and reports the number of ids it was given, whether
    or not they were in the collection; a second call then finds nothing
    to delete. When an id is repeated, the store rejects the list: the
    tool answers the store's error as a string, deletes nothing and
    leaves the attribute as it was. *)
Theorem delete_processed_chunks_marked (w : World) (ids : list str) :
  processed_chunks (ctx w) = Some ids →
  ids ≠ [] →
  let w' := (delete_processed_chunks w).2 in
  (NoDup ids →
   (delete_processed_chunks w).1
   = Ok (lit "Successfully deleted " ++ str_of_int (len ids) ++ lit " chunks")
   ∧ (∀ i, i ∈ ids → collection (processor w') !! i = None)
   ∧ (∀ i, i ∉ ids → collection (processor w') !! i = collection (processor w) !! i)
   ∧ processed_chunks (ctx w') = Some []
   ∧ summarizer w' = summarizer w
   ∧ os w' = os w
   ∧ delete_processed_chunks w' = (Ok (lit "No chunks to delete"), w'))
  ∧ (¬ NoDup ids →
     delete_processed_chunks w
     = (Ok (lit "Error deleting chunks: "
            ++ str_of_exn (delete_error (processor w) ids)), w)).
Proof.
  intros Hctx Hne w'. unfold w'. rewrite delete_processed_chunks_run, Hctx.
  destruct ids as [|i ids]; [done|]. split.
  - intros Hnd. rewrite collection_delete_distinct by done. simpl.
    split; [done|]. split; [|split]; [| |done].
    + intros j Hj.
      exact (lookup_foldr_delete (collection (processor w)) (i :: ids) j Hj).
    + intros j Hj.
      exact (lookup_foldr_delete_not_elem_of (collection (processor w)) (i :: ids) j Hj).
  - intros Hdup. rewrite collection_delete_rejected by (by right). done.
Qed.

Lemma delete_processed_chunks_marked_witness :
  (delete_processed_chunks marked_world).1
  = Ok (lit "Successfully deleted " ++ str_of_int 2 ++ lit " chunks")
  ∧ size (collection (processor (delete_processed_chunks marked_world).2)) = 4%nat
  ∧ delete_processed_chunks repeated_world
    = (Ok (lit "Error deleting chunks: Expected IDs to be unique, found duplicates"),
       repeated_world).
Proof.
  destruct (delete_processed_chunks_marked marked_world [lit "id_0"; lit "id_9"])
    as (Hdistinct & _); [reflexivity|discriminate|].
  destruct (delete_processed_chunks_marked repeated_world [lit "id_0"; lit "id_0"])
    as (_ & Hrepeated); [reflexivity|discriminate|].
  split; [|split].
  - apply Hdistinct. apply NoDup_cons. split; [|apply NoDup_singleton].
    intros Hin. apply elem_of_cons in Hin as [Heq|Hin].
    + vm_compute in Heq. discriminate Heq.
    + by apply elem_of_nil in Hin.
  - vm_compute. reflexivity.
  - apply Hrepeated. intros Hnd. apply NoDup_cons in Hnd as [Hin _].
    apply Hin. left.
Defined.

(** * What one event does *)

Section EventEffects.
Variable distance : str → str → Z.
Variable model_dump_json : SummaryResponse → str.

(** An add tool appends one block with the next uuid and draws that
  uuid; every other event leaves the accumulator and the uuid
  generator alone. *)
Lemma run_event_summarizer e w :
uuid_source (os (run_event distance model_dump_json e w)) = uuid_source (os w)
∧ if is_add e then
    uuid_drawn (os (run_event distance model_dump_json e w)) = S (uuid_drawn (os w))
    ∧ ∃ b, id b = next_uuid (os w)
           ∧ appended b (summarizer w) (summarizer (run_event distance model_dump_json e w))
  else
    uuid_drawn (os (run_event distance model_dump_json e w)) = uuid_drawn (os w)
    ∧ summarizer (run_event distance model_dump_json e w) = summarizer w.
Proof.
destruct e as [p C O|t]; simpl.
{ by destruct (process_transcript_frame p C O w) as [m ->]. }
destruct t; unfold call_tool; rewrite fmap_world; simpl.
- by destruct (query_transcript_frame distance query w) as [m ->].
- split; [done|]. split; [done|]. eexists. split; [|right; right; done]. done.
- split; [done|]. split; [done|]. eexists. split; [|left; done]. done.
- split; [done|]. split; [done|]. eexists. split; [|right; left; done]. done.
- rewrite save_final_summary_result_run.
  by destruct (has_content _); [destruct (write_errors _ !! _)|].
- done.
- rewrite delete_processed_chunks_run.
  destruct (processed_chunks (ctx w)) as [[|i ids]|]; try done.
  by destruct (collection_delete (processor w) (i :: ids)).
Qed.

(** Only [save_final_summary_result] writes a file, and only the summary
  file; no event changes which paths can be read or written. *)
Lemma run_event_files e w :
read_errors (os (run_event distance model_dump_json e w)) = read_errors (os w)
∧ write_errors (os (run_event distance model_dump_json e w)) = write_errors (os w)
∧ (files (os (run_event distance model_dump_json e w)) = files (os w)
   ∨ e = Call SaveFinalSummaryResult
     ∧ files (os (run_event distance model_dump_json e w))
       = <[lit "final_summary_result.json"
           := model_dump_json (summary_of (summarizer w))]> (files (os w))).
Proof.
destruct e as [p C O|t]; simpl.
{ destruct (process_transcript_frame p C O w) as [m ->]. auto. }
destruct t; unfold call_tool; rewrite fmap_world; simpl; auto.
- destruct (query_transcript_frame distance query w) as [m ->]. auto.
- rewrite save_final_summary_result_run.
  destruct (has_content _); [destruct (write_errors _ !! _)|]; simpl; auto.
- rewrite delete_processed_chunks_run.
  destruct (processed_chunks (ctx w)) as [[|i ids]|]; auto.
  destruct (collection_delete (processor w) (i :: ids)); auto.
Qed.

Lemma appended_blocks b s s' :
appended b s s' →
accumulator_blocks s' ≡ₚ b :: accumulator_blocks s
∧ blocks (Agenda s) `prefix_of` blocks (Agenda s')
∧ blocks (Decisions s) `prefix_of` blocks (Decisions s')
∧ blocks (ActionItems s) `prefix_of` blocks (ActionItems s')
∧ ClosingRemarks s' = ClosingRemarks s
∧ title (Agenda s') = title (Agenda s)
∧ title (Decisions s') = title (Decisions s)
∧ title (ActionItems s') = title (ActionItems s).
Proof.
unfold accumulator_blocks.
intros [-> | [-> | ->]]; simpl; (split; [|repeat split; try done; by apply prefix_app_r]).
- rewrite <- app_assoc. simpl. symmetry. apply Permutation_middle.
- rewrite <- !app_assoc. simpl.
  rewrite !(app_assoc (blocks (Agenda s))). symmetry. apply Permutation_middle.
- rewrite <- !app_assoc. simpl.
  rewrite !(app_assoc (blocks (Agenda s))),
    !(app_assoc (blocks (Agenda s) ++ blocks (Decisions s))).
  symmetry. apply Permutation_middle.
Qed.

End EventEffects.

(** * Tools and exceptions *)

(** X13. No exception escapes a tool: every tool call, in every state,
    returns a value, a summary for [get_final_summary] and a string for
    the six other tools. A write that fails inside
    [save_final_summary_result] comes back as a string. *)
Theorem call_tool_never_raises
    (distance : str → str → Z) (model_dump_json : SummaryResponse → str)
    (t : ToolCall) (w : World) :
  ∃ r, (call_tool distance model_dump_json t w).1 = Ok r
       ∧ match t with
         | GetFinalSummary => ∃ s, r = Summary s
         | _ => ∃ s, r = Text s
         end.
Proof.
  destruct t; unfold call_tool.
  - destruct (decide (collection (processor w) = ∅)) as [He|Hne].
    + unfold fmap, M_fmap, bind, ret.
      rewrite query_transcript_empty_run by done. eauto.
    + destruct (query_transcript_run distance query w Hne) as (i & c & _ & _ & Hrun).
      unfold fmap, M_fmap, bind, ret. rewrite Hrun. eauto.
  - eexists. split; [reflexivity|eauto].
  - eexists. split; [reflexivity|eauto].
  - eexists. split; [reflexivity|eauto].
  - unfold fmap, M_fmap, bind, ret. rewrite save_final_summary_result_run.
    destruct (has_content _); [destruct (write_errors _ !! _)|]; eauto.
  - eexists. split; [reflexivity|eauto].
  - unfold fmap, M_fmap, bind, ret. rewrite delete_processed_chunks_run.
    destruct (processed_chunks (ctx w)) as [[|i ids]|]; eauto.
    destruct (collection_delete (processor w) (i :: ids)); eauto.
Qed.

(** * The accumulator over a run *)

Section AccumulatorRuns.
Variable distance : str → str → Z.
Variable model_dump_json : SummaryResponse → str.

Lemma run_event_append_only e w :
blocks (Agenda (summarizer w))
  `prefix_of` blocks (Agenda (summarizer (run_event distance model_dump_json e w)))
∧ blocks (Decisions (summarizer w))
    `prefix_of` blocks (Decisions (summarizer (run_event distance model_dump_json e w)))
∧ blocks (ActionItems (summarizer w))
    `prefix_of` blocks (ActionItems (summarizer (run_event distance model_dump_json e w)))
∧ ClosingRemarks (summarizer (run_event distance model_dump_json e w))
  = ClosingRemarks (summarizer w)
∧ title (Agenda (summarizer (run_event distance model_dump_json e w)))
  = title (Agenda (summarizer w))
∧ title (Decisions (summarizer (run_event distance model_dump_json e w)))
  = title (Decisions (summarizer w))
∧ title (ActionItems (summarizer (run_event distance model_dump_json e w)))
  = title (ActionItems (summarizer w)).
Proof.
destruct (run_event_summarizer distance model_dump_json e w) as [_ He].
destruct (is_add e).
- destruct He as (_ & b & _ & Happ). by apply appended_blocks in Happ as (_ & ?).
- destruct He as [_ ->]. done.
Qed.

Lemma run_append_only events :
∀ w,
  blocks (Agenda (summarizer w))
    `prefix_of` blocks (Agenda (summarizer (run distance model_dump_json events w)))
  ∧ blocks (Decisions (summarizer w))
      `prefix_of` blocks (Decisions (summarizer (run distance model_dump_json events w)))
  ∧ blocks (ActionItems (summarizer w))
      `prefix_of` blocks (ActionItems (summarizer (run distance model_dump_json events w)))
  ∧ ClosingRemarks (summarizer (run distance model_dump_json events w))
    = ClosingRemarks (summarizer w)
  ∧ title (Agenda (summarizer (run distance model_dump_json events w)))
    = title (Agenda (summarizer w))
  ∧ title (Decisions (summarizer (run distance model_dump_json events w)))
    = title (Decisions (summarizer w))
  ∧ title (ActionItems (summarizer (run distance model_dump_json events w)))
    = title (ActionItems (summarizer w)).
Proof.
induction events as [|e events IH]; intros w; [done|].
rewrite run_cons.
destruct (IH (run_event distance model_dump_json e w))
  as (Ha & Hd & Hi & Hc & Hta & Htd & Hti).
destruct (run_event_append_only e w) as (Ha' & Hd' & Hi' & Hc' & Hta' & Htd' & Hti').
repeat split; try (etransitivity; eassumption); congruence.
Qed.

Lemma run_count events :
∀ w,
  length (accumulator_blocks (summarizer (run distance model_dump_json events w)))
  = (length (accumulator_blocks (summarizer w)) + count_adds events)%nat
  ∧ uuid_drawn (os (run distance model_dump_json events w))
    = (uuid_drawn (os w) + count_adds events)%nat.
Proof.
induction events as [|e events IH]; intros w; [simpl; lia|].
rewrite run_cons.
destruct (IH (run_event distance model_dump_json e w)) as [-> ->].
destruct (run_event_summarizer distance model_dump_json e w) as [_ He]. simpl.
destruct (is_add e).
- destruct He as (-> & b & _ & Happ). apply appended_blocks in Happ as (Hperm & _).
  rewrite Hperm. simpl. lia.
- destruct He as [-> ->]. lia.
Qed.

Lemma run_event_ids_drawn e w :
ids_drawn w → ids_drawn (run_event distance model_dump_json e w).
Proof.
intros (ks & Hids & Hnd & Hlt).
destruct (run_event_summarizer distance model_dump_json e w) as [Hsrc He].
destruct (is_add e).
- destruct He as (Hdrawn & b & Hb & Happ).
  apply appended_blocks in Happ as (Hperm & _).
  exists (uuid_drawn (os w) :: ks). split; [|split].
  + rewrite Hperm, Hsrc. simpl. rewrite Hb, Hids. done.
  + apply NoDup_cons. split; [|done]. intros Hin.
    rewrite Forall_forall in Hlt. apply Hlt in Hin. lia.
  + rewrite Hdrawn. constructor; [lia|].
    eapply Forall_impl; [exact Hlt|]. simpl. lia.
- destruct He as [Hdrawn Hs]. exists ks. by rewrite Hs, Hsrc, Hdrawn.
Qed.

Lemma reachable_ids_drawn w :
reachable distance model_dump_json w → ids_drawn w.
Proof.
induction 1 as [w [Hs _]|w path C O _ IH|w t _ IH].
- exists []. rewrite Hs. split; [done|]. split; [constructor|done].
- apply (run_event_ids_drawn (Ingest path C O)), IH.
- apply (run_event_ids_drawn (Call t)), IH.
Qed.

End AccumulatorRuns.

(** X14. The accumulator is append-only: over any series of ingestions
    and tool calls, the blocks each of Agenda, Decisions and Action Items
    held before are still there, in the same order and at the front of
    the section; the stored Closing Remarks section does not change, and
    no section title changes. *)
Theorem accumulator_append_only
    (distance : str → str → Z) (model_dump_json : SummaryResponse → str)
    (events : list Event) (w : World) :
  let s := summarizer w in
  let s' := summarizer (run distance model_dump_json events w) in
  blocks (Agenda s) `prefix_of` blocks (Agenda s')
  ∧ blocks (Decisions s) `prefix_of` blocks (Decisions s')
  ∧ blocks (ActionItems s) `prefix_of` blocks (ActionItems s')
  ∧ ClosingRemarks s' = ClosingRemarks s
  ∧ title (Agenda s') = title (Agenda s)
  ∧ title (Decisions s') = title (Decisions s)
  ∧ title (ActionItems s') = title (ActionItems s).
Proof. apply run_append_only. Qed.

(** X15. Every add call adds exactly one block and draws exactly one
    uuid, and nothing else does either: over any series of events, the
    number of blocks in the accumulator and the number of uuids drawn
    both grow by the number of add calls in the series. *)
Theorem blocks_count_add_calls
    (distance : str → str → Z) (model_dump_json : SummaryResponse → str)
    (events : list Event) (w : World) :
  let w' := run distance model_dump_json events w in
  length (accumulator_blocks (summarizer w'))
  = (length (accumulator_blocks (summarizer w)) + count_adds events)%nat
  ∧ uuid_drawn (os w') = (uuid_drawn (os w) + count_adds events)%nat.
Proof. apply run_count. Qed.

Lemma sample_uuid_inj : Inj (=) (=) sample_uuid.
Proof.
  intros j k H. unfold sample_uuid, str_of_int in H.
  apply app_inv_head, lit_inj in H. apply (inj pretty) in H. lia.
Qed.

(** X16. Block ids are unique: in every reachable state, when the uuid
    generator never hands out the same value twice, no two blocks of the
    accumulator, in the same section or in different ones, have the same
    id. *)
Theorem block_ids_unique
    (distance : str → str → Z) (model_dump_json : SummaryResponse → str)
    (w : World) :
  reachable distance model_dump_json w →
  Inj (=) (=) (uuid_source (os w)) →
  NoDup (id <$> accumulator_blocks (summarizer w)).
Proof.
  intros Hreach Hinj.
  apply reachable_ids_drawn in Hreach as (ks & Hids & Hnd & _).
  rewrite Hids. by apply NoDup_fmap_2.
Qed.

Lemma block_ids_unique_witness :
  NoDup (id <$> accumulator_blocks (summarizer decided_world)).
Proof.
  apply (block_ids_unique flat_distance sample_dump decided_world).
  - apply (reach_tool flat_distance sample_dump sample_world
             (AddDecision (lit "Budget") (lit "Approved"))).
    apply reach_initial. split; reflexivity.
  - exact sample_uuid_inj.
Defined.

(** * Saving the summary *)



Lemma run_files distance model_dump_json events :
  ∀ w,
    read_errors (os (run distance model_dump_json events w)) = read_errors (os w)
    ∧ write_errors (os (run distance model_dump_json events w)) = write_errors (os w)
    ∧ ∀ p, p ≠ lit "final_summary_result.json" →
           files (os (run distance model_dump_json events w)) !! p
           = files (os w) !! p.
Proof.
  induction events as [|e events IH]; intros w; [done|].
  rewrite run_cons.
  destruct (IH (run_event distance model_dump_json e w)) as (-> & -> & Hfiles).
  destruct (run_event_files distance model_dump_json e w) as (-> & -> & Hstep).
  split; [done|]. split; [done|]. intros p Hp. rewrite Hfiles by done.
  destruct Hstep as [->|[_ ->]]; [done|]. by rewrite lookup_insert_ne.
Qed.

(** X18. Through its own [open] calls the module writes one file only:
    over any series of ingestions and tool calls, no file other than
    [final_summary_result.json] is created, changed or removed by them,
    and the transcript files are only read. The directory in which the
    ChromaDB client persists its store is written by the store, not by
    these calls, and is not among the files meant here. *)
Theorem only_summary_file_written
    (distance : str → str → Z) (model_dump_json : SummaryResponse → str)
    (events : list Event) (w : World) :
  let w' := run distance model_dump_json events w in
  read_errors (os w') = read_errors (os w)
  ∧ write_errors (os w') = write_errors (os w)
  ∧ ∀ p, p ≠ lit "final_summary_result.json" →
         files (os w') !! p = files (os w) !! p.
Proof. apply run_files. Qed.
